(** * The IgaraGenerator workflow scheduler (workflow-executor.py)

    A shallow embedding of the [Generator] workflow class: its graph model
    (workflow-executor-types.py), the dependency index, the node state
    tracker and the scheduler engine.  The asyncio coroutines are embedded
    as an interleaving small-step machine: every coroutine is cut at its
    [await] points, and one step resumes one suspended coroutine with the
    outcome of the call it was waiting for and runs it to its next
    suspension. *)

From stdpp Require Import gmap strings list fin_maps fin_sets.

Open Scope string_scope.

(** ** Data model *)

(** [class Status(Enum)]; [name] is [Status.X.name], which is also what
    [__str__] returns. *)
Inductive Status := PENDING | EXECUTING | COMPLETED | SUCCESS | FAILED | SKIPPED.

Definition name (s : Status) : string :=
  match s with
  | PENDING => "PENDING"
  | EXECUTING => "EXECUTING"
  | COMPLETED => "COMPLETED"
  | SUCCESS => "SUCCESS"
  | FAILED => "FAILED"
  | SKIPPED => "SKIPPED"
  end.

(** JSON-compatible structured values: activity results, error payloads,
    node parameters. *)
#[warnings="-register-all"]
Inductive json :=
  | JStr (s : string)
  | JObj (fields : list (string * json)).

(** A node key as the scheduler handles it at run time.  The keys of
    [nodes] are strings; an edge endpoint is [Optional[str]], so the keys
    flowing out of the edge list may be Python's [None]. *)
Abbreviation Key := (option string).

(** [class Node(BaseModel)] *)
Record Node := { activity_id : string; params : list (string * json) }.

(** [class Edge(BaseModel)]: both endpoints default to [None]. *)
Record Edge := { from_node : Key; to_node : Key }.

(** [class DAG(BaseModel)] *)
Record DAG := { dag_edges : list Edge; dag_nodes : gmap string Node }.

(** [class GeneratorParams(BaseModel)] *)
Record GeneratorParams :=
  { dag : DAG; data_user_id : string; dataset_id : string; workflow_id : string }.

(** An entry of [executed_nodes]: [{"status": <name>, "output": <value>}]. *)
Record NodeState := { status : string; output : json }.

(** One patch operation [{"op":..., "path":..., "value":...}]. *)
Record PatchOp := { op : string; path : string; value : json }.

(** Calls made to the host runtime through [workflow.execute_activity]. *)
Inductive Call :=
  | CreateExecution (workflow dataset initial_status user : string)
  | PatchExecution (execution : string) (patch : list PatchOp) (user : Key)
  | NodeActivity (activity : string) (args : json).

(** The fields of a [Generator] instance. *)
Record Generator := {
  execution_id : Key;
  user_id : Key;
  nodes : gmap string Node;
  edges : list Edge;
  executed_nodes : gmap Key NodeState;
  _workflow_failed : bool;
  _node_dependencies : gmap string (gset Key);
}.

(** [Generator.__init__] *)
Definition __init__ : Generator :=
  {| execution_id := None; user_id := None; nodes := ∅; edges := [];
     executed_nodes := ∅; _workflow_failed := false; _node_dependencies := ∅ |}.

(** Field updates (attribute assignment on [self]). *)
Definition set_execution_id (v : Key) (g : Generator) : Generator :=
  {| execution_id := v; user_id := user_id g; nodes := nodes g; edges := edges g;
     executed_nodes := executed_nodes g; _workflow_failed := _workflow_failed g;
     _node_dependencies := _node_dependencies g |}.

Definition set_graph (u : Key) (n : gmap string Node) (e : list Edge)
    (g : Generator) : Generator :=
  {| execution_id := execution_id g; user_id := u; nodes := n; edges := e;
     executed_nodes := executed_nodes g; _workflow_failed := _workflow_failed g;
     _node_dependencies := _node_dependencies g |}.

Definition set_nodes (n : gmap string Node) (g : Generator) : Generator :=
  {| execution_id := execution_id g; user_id := user_id g; nodes := n;
     edges := edges g; executed_nodes := executed_nodes g;
     _workflow_failed := _workflow_failed g;
     _node_dependencies := _node_dependencies g |}.

Definition set_executed_nodes (m : gmap Key NodeState) (g : Generator) : Generator :=
  {| execution_id := execution_id g; user_id := user_id g; nodes := nodes g;
     edges := edges g; executed_nodes := m;
     _workflow_failed := _workflow_failed g;
     _node_dependencies := _node_dependencies g |}.

Definition set_workflow_failed (b : bool) (g : Generator) : Generator :=
  {| execution_id := execution_id g; user_id := user_id g; nodes := nodes g;
     edges := edges g; executed_nodes := executed_nodes g;
     _workflow_failed := b; _node_dependencies := _node_dependencies g |}.

Definition set_node_dependencies (d : gmap string (gset Key)) (g : Generator)
    : Generator :=
  {| execution_id := execution_id g; user_id := user_id g; nodes := nodes g;
     edges := edges g; executed_nodes := executed_nodes g;
     _workflow_failed := _workflow_failed g; _node_dependencies := d |}.

(** ** Dependency index and graph queries *)

(** The inner set comprehension of [_precompute_dependencies]:
    [{edge.from_node for edge in self.edges if edge.to_node == node}]. *)
Definition dependencies_of (es : list Edge) (node : string) : gset Key :=
  list_to_set (from_node <$> filter (λ e, to_node e = Some node) es).

(** [_precompute_dependencies]: one entry per key of [self.nodes]. *)
Definition _precompute_dependencies (g : Generator) : Generator :=
  set_node_dependencies
    (set_to_map (λ node, (node, dependencies_of (edges g) node)) (dom (nodes g)))
    g.

(** [find_root_keys]: [set(self.nodes.keys()) - {edge.to_node for ...}]. *)
Definition find_root_keys (g : Generator) : gset Key :=
  let all_nodes : gset Key := set_map Some (dom (nodes g)) in
  let child_nodes : gset Key := list_to_set (to_node <$> edges g) in
  all_nodes ∖ child_nodes.

(** [self._node_dependencies.get(child, set())] *)
Definition dependencies_get (g : Generator) (child : Key) : gset Key :=
  match child with
  | Some c => default ∅ (_node_dependencies g !! c)
  | None => ∅
  end.

(** The set [children] of [_process_child_nodes]. *)
Definition children (g : Generator) (node_key : Key) : gset Key :=
  list_to_set (to_node <$> filter (λ e, from_node e = node_key) (edges g)).

(** The readiness test of [_process_child_nodes]:
    [all(dep in self.executed_nodes for dep in deps)]. *)
Definition is_ready (g : Generator) (child : Key) : bool :=
  forallb (λ dep, bool_decide (is_Some (executed_nodes g !! dep)))
          (elements (dependencies_get g child)).

(** The list [ready_children] of [_process_child_nodes]. *)
Definition ready_children (g : Generator) (node_key : Key) : list Key :=
  filter (λ child, is_ready g child = true) (elements (children g node_key)).

(** [determine_final_status] *)
Definition determine_final_status (g : Generator) : Status :=
  let statuses := status <$> (map_to_list (executed_nodes g)).*2 in
  if existsb (λ s, bool_decide (s = name FAILED)) statuses then FAILED
  else if existsb (λ s, bool_decide (s = name PENDING)) statuses then PENDING
  else COMPLETED.

(** ** Persistence adapter *)

(** The f-string rendering of a node key inside a patch path. *)
Definition key_str (k : Key) : string := default "None" k.

(** [update_execution_status]: the patch call it awaits, or [None] when it
    returns at the [if not self.execution_id] guard ([None] and the empty
    string are both falsy). *)
Definition update_execution_status (g : Generator) (st : Status) : option Call :=
  match execution_id g with
  | None => None
  | Some eid =>
      if String.eqb eid "" then None
      else
        let patch := [ {| op := "replace"; path := "/status";
                          value := JStr (name st) |} ] in
        Some (PatchExecution eid patch (user_id g))
  end.

(** [update_node_output]: likewise. *)
Definition update_node_output (g : Generator) (node_key : Key)
    (result : option json) (st : option Status) : option Call :=
  match execution_id g with
  | None => None
  | Some eid =>
      if String.eqb eid "" then None
      else
        let result_patch :=
          match result with
          | Some r => [ {| op := "add"; path := "/output/" ++ key_str node_key;
                           value := r |} ]
          | None => []
          end in
        let status_patch :=
          match st with
          | Some s => [ {| op := "add";
                           path := "/output/" ++ key_str node_key ++ "/status";
                           value := JStr (name s) |} ]
          | None => []
          end in
        let patches := app result_patch status_patch in
        Some (PatchExecution eid patches (user_id g))
  end.

(** ** The [execute_node] coroutine *)

(** What the runtime delivers when it resumes a coroutine suspended on
    [workflow.execute_activity]: the activity's value, or an exception. *)
Inductive outcome := Returned (v : json) | Raised (msg : string).

(** Program points of an [execute_node] coroutine: where it is suspended. *)
Inductive pc :=
  | Start                              (* task created by gather, not yet run *)
  | AwaitPatchSkipped                  (* line 169 *)
  | AwaitPatchExecuting (node : Node)  (* line 180 *)
  | AwaitActivity                      (* line 183 *)
  | AwaitPatchSuccess                  (* line 202 *)
  | AwaitPatchFailed                   (* line 216 *)
  | AwaitChildren (ids : list nat)     (* line 240 *)
  | Done.

(** How a resumed coroutine stops again. *)
Inductive suspend :=
  | Awaiting (c : Call) (p : pc)
  | Gathering (keys : list Key)
  | Finished
  | Failing (msg : string).

(** [self.executed_nodes[node_key] = {"status": ..., "output": ...}] *)
Definition record_result (node_key : Key) (st : Status) (out : json)
    (g : Generator) : Generator :=
  set_executed_nodes
    (<[node_key := {| status := name st; output := out |}]> (executed_nodes g)) g.

Definition skip_message : string := "Skipped due to previous node failure".

(** [_handle_skipped_node] *)
Definition _handle_skipped_node (node_key : Key) (g : Generator)
    : Generator * suspend :=
  let result := JObj [("error", JStr skip_message)] in
  let g := record_result node_key SKIPPED result g in
  match update_node_output g node_key (Some result) (Some SKIPPED) with
  | Some c => (g, Awaiting c AwaitPatchSkipped)
  | None => (g, Finished)
  end.

(** [_process_child_nodes] *)
Definition _process_child_nodes (node_key : Key) (g : Generator)
    : Generator * suspend :=
  if _workflow_failed g then (g, Finished)
  else (g, Gathering (ready_children g node_key)).

(** [_handle_failed_execution]; the flag is set after the awaited patch. *)
Definition _handle_failed_execution (node_key : Key) (error : string)
    (g : Generator) : Generator * suspend :=
  let error_result := JObj [("error", JStr error)] in
  let g := record_result node_key FAILED error_result g in
  match update_node_output g node_key (Some error_result) (Some FAILED) with
  | Some c => (g, Awaiting c AwaitPatchFailed)
  | None => (set_workflow_failed true g, Finished)
  end.

(** [_handle_successful_execution], followed (when its patch does not
    suspend) by the rest of [_process_node_execution]. *)
Definition _handle_successful_execution (node_key : Key) (result : json)
    (g : Generator) : Generator * suspend :=
  let g := record_result node_key SUCCESS result g in
  match update_node_output g node_key (Some result) (Some SUCCESS) with
  | Some c => (g, Awaiting c AwaitPatchSuccess)
  | None => _process_child_nodes node_key g
  end.

(** [node.params.node_name = node_key] *)
Definition set_node_name (node_key : string) (n : Node) : Node :=
  {| activity_id := activity_id n;
     params := ("node_name", JStr node_key)
               :: filter (λ f, f.1 ≠ "node_name") (params n) |}.

(** The call of line 183. *)
Definition dispatch (node : Node) : suspend :=
  Awaiting (NodeActivity (activity_id node) (JObj (params node))) AwaitActivity.

(** [_process_node_execution] up to its first suspension.  [self.nodes] is
    keyed by strings, so a [None] key raises [KeyError] like any absent one. *)
Definition _process_node_execution (node_key : Key) (g : Generator)
    : Generator * suspend :=
  match node_key ≫= (λ k, (λ n, (k, n)) <$> nodes g !! k) with
  | None => (g, Failing ("KeyError: " ++ key_str node_key))
  | Some (k, node) =>
      let node := set_node_name k node in
      let g := set_nodes (<[k := node]> (nodes g)) g in
      match update_node_output g node_key (Some (JObj [])) (Some EXECUTING) with
      | Some c => (g, Awaiting c (AwaitPatchExecuting node))
      | None => (g, dispatch node)
      end
  end.

(** [execute_node] *)
Definition execute_node (node_key : Key) (g : Generator) : Generator * suspend :=
  if _workflow_failed g then _handle_skipped_node node_key g
  else _process_node_execution node_key g.

(** Resuming a coroutine suspended at [p] with outcome [o].  The [try] of
    [_process_node_execution] covers lines 183-189, so an exception out of
    the activity or out of the patch of [_handle_successful_execution] goes
    to [_handle_failed_execution]; any other exception leaves the
    coroutine.  [None]: the coroutine is not waiting for an outcome. *)
Definition resume (node_key : Key) (p : pc) (o : outcome) (g : Generator)
    : option (Generator * suspend) :=
  match p, o with
  | Start, _ => Some (execute_node node_key g)
  | AwaitPatchSkipped, Returned _ => Some (g, Finished)
  | AwaitPatchExecuting node, Returned _ => Some (g, dispatch node)
  | AwaitActivity, Returned result =>
      Some (_handle_successful_execution node_key result g)
  | AwaitActivity, Raised e => Some (_handle_failed_execution node_key e g)
  | AwaitPatchSuccess, Returned _ => Some (_process_child_nodes node_key g)
  | AwaitPatchSuccess, Raised e => Some (_handle_failed_execution node_key e g)
  | AwaitPatchFailed, Returned _ => Some (set_workflow_failed true g, Finished)
  | AwaitPatchSkipped, Raised e
  | AwaitPatchExecuting _, Raised e
  | AwaitPatchFailed, Raised e => Some (g, Failing e)
  | AwaitChildren _, _ | Done, _ => None
  end.

(** ** The run: tasks of the event loop *)

(** A task wrapping one [execute_node(node_key)] coroutine. *)
Record task := { node_key : Key; at_pc : pc }.

(** Program points of the [run] coroutine. *)
Inductive main_pc :=
  | MStart
  | MAwaitCreate                                         (* line 54 *)
  | MAwaitRootInit (root_keys : gset Key) (rest : list Key)  (* line 95 *)
  | MAwaitStatusExecuting (root_keys : gset Key)         (* line 89 *)
  | MAwaitRoots (ids : list nat)                         (* line 90 *)
  | MAwaitFinal                                          (* line 100 *)
  | MReturned (result : gmap Key NodeState)              (* line 49 *)
  | MRaised (msg : string).

(** The workflow instance, the calls it has made to the runtime so far, the
    node-operation outcomes it has observed, its tasks (a task's id is its
    index) and the program point of [run]. *)
Record config := {
  data : GeneratorParams;
  self : Generator;
  calls : list Call;
  observed : list (Key * outcome);
  tasks : list task;
  main : main_pc;
}.

Definition init (d : GeneratorParams) : config :=
  {| data := d; self := __init__; calls := []; observed := [];
     tasks := []; main := MStart |}.

Definition with_self (g : Generator) (c : config) : config :=
  {| data := data c; self := g; calls := calls c; observed := observed c;
     tasks := tasks c; main := main c |}.

Definition with_call (k : Call) (c : config) : config :=
  {| data := data c; self := self c; calls := calls c ++ [k];
     observed := observed c; tasks := tasks c; main := main c |}.

Definition with_observed (k : Key) (o : outcome) (c : config) : config :=
  {| data := data c; self := self c; calls := calls c;
     observed := observed c ++ [(k, o)]; tasks := tasks c; main := main c |}.

Definition with_tasks (ts : list task) (c : config) : config :=
  {| data := data c; self := self c; calls := calls c; observed := observed c;
     tasks := ts; main := main c |}.

Definition with_main (m : main_pc) (c : config) : config :=
  {| data := data c; self := self c; calls := calls c; observed := observed c;
     tasks := tasks c; main := m |}.

(** [asyncio.gather] over [self.execute_node(k) for k in keys]: one new
    task per key; the ids of the new tasks. *)
Definition new_tasks (keys : list Key) : list task :=
  (λ k, {| node_key := k; at_pc := Start |}) <$> keys.

Definition gather (keys : list Key) (c : config) : config * list nat :=
  (with_tasks (tasks c ++ new_tasks keys) c, seq (length (tasks c)) (length keys)).

Definition is_done (ts : list task) (i : nat) : bool :=
  match ts !! i with
  | Some {| at_pc := Done |} => true
  | _ => false
  end.

(** The gathered tasks have all finished. *)
Definition all_done (ts : list task) (ids : list nat) : bool := forallb (is_done ts) ids.

Definition set_pc (tid : nat) (p : pc) (c : config) : config :=
  with_tasks (alter (λ t, {| node_key := node_key t; at_pc := p |}) tid (tasks c)) c.

(** [finalize_execution] and the [return] of [run]. *)
Definition finalize_execution (c : config) : config :=
  let final_status := determine_final_status (self c) in
  match update_execution_status (self c) final_status with
  | Some k => with_main MAwaitFinal (with_call k c)
  | None => with_main (MReturned (executed_nodes (self c))) c
  end.

(** Line 90: the gather over the root keys.  A gather of nothing is
    already complete and does not suspend. *)
Definition gather_roots (root_keys : gset Key) (c : config) : config :=
  match elements root_keys with
  | [] => finalize_execution c
  | keys => let '(c, ids) := gather keys c in with_main (MAwaitRoots ids) c
  end.

(** Line 89. *)
Definition set_executing (root_keys : gset Key) (c : config) : config :=
  match update_execution_status (self c) EXECUTING with
  | Some k => with_main (MAwaitStatusExecuting root_keys) (with_call k c)
  | None => gather_roots root_keys c
  end.

(** [initialize_root_nodes]: the loop over the keys still to initialize. *)
Fixpoint initialize_root_nodes (root_keys : gset Key) (rest : list Key)
    (c : config) : config :=
  match rest with
  | [] => set_executing root_keys c
  | key :: rest =>
      match update_node_output (self c) key (Some (JObj [])) (Some PENDING) with
      | Some k => with_main (MAwaitRootInit root_keys rest) (with_call k c)
      | None => initialize_root_nodes root_keys rest c
      end
  end.

(** [process_root_nodes] *)
Definition process_root_nodes (c : config) : config :=
  let root_keys := find_root_keys (self c) in
  initialize_root_nodes root_keys (elements root_keys) c.

(** [execution_response["executionId"]].  The record-creation collaborator
    answers with an object whose [executionId] is a string; any other
    answer is taken as a failure of the subscript. *)
Definition executionId (response : json) : option string :=
  match response with
  | JObj fields =>
      match list_find (λ f, f.1 = "executionId") fields with
      | Some (_, (_, JStr s)) => Some s
      | _ => None
      end
  | JStr _ => None
  end.

(** [initialize_execution] after the creation activity has answered. *)
Definition initialize_execution (response : json) (c : config) : option config :=
  eid ← executionId response;
  let d := data c in
  let g := set_execution_id (Some eid) (self c) in
  let g := set_graph (Some (data_user_id d)) (dag_nodes (dag d)) (dag_edges (dag d)) g in
  Some (with_self (_precompute_dependencies g) c).

(** Resuming [run]. *)
Definition step_main (o : outcome) (c : config) : option config :=
  match main c, o with
  | MStart, _ =>
      let d := data c in
      Some (with_main MAwaitCreate
              (with_call (CreateExecution (workflow_id d) (dataset_id d)
                            (name PENDING) (data_user_id d)) c))
  | MAwaitCreate, Returned response =>
      match initialize_execution response c with
      | Some c => Some (process_root_nodes c)
      | None => Some (with_main (MRaised "KeyError: executionId") c)
      end
  | MAwaitRootInit root_keys rest, Returned _ =>
      Some (initialize_root_nodes root_keys rest c)
  | MAwaitStatusExecuting root_keys, Returned _ => Some (gather_roots root_keys c)
  | MAwaitRoots ids, _ =>
      if all_done (tasks c) ids then Some (finalize_execution c) else None
  | MAwaitFinal, Returned _ =>
      Some (with_main (MReturned (executed_nodes (self c))) c)
  | MAwaitCreate, Raised e
  | MAwaitRootInit _ _, Raised e
  | MAwaitStatusExecuting _, Raised e
  | MAwaitFinal, Raised e => Some (with_main (MRaised e) c)
  | MReturned _, _ | MRaised _, _ => None
  end.

(** Where a resumed task stops: at a new await, at a gather of child tasks
    (a gather of nothing is already complete), finished, or with an
    exception.  An exception that leaves an [execute_node] coroutine travels
    through every enclosing gather (none of lines 240, 194, 160, 90, 47
    catches it) and ends [run]. *)
Definition suspend_task (tid : nat) (s : suspend) (c : config) : config :=
  match s with
  | Awaiting k p => set_pc tid p (with_call k c)
  | Gathering [] | Finished => set_pc tid Done c
  | Gathering keys =>
      let '(c, ids) := gather keys c in set_pc tid (AwaitChildren ids) c
  | Failing e => with_main (MRaised e) c
  end.

(** The outcome of a node operation is what the scheduler observes of it. *)
Definition observe (t : task) (o : outcome) (c : config) : config :=
  match at_pc t with
  | AwaitActivity => with_observed (node_key t) o c
  | _ => c
  end.

(** Resuming task [tid]. *)
Definition step_task (tid : nat) (o : outcome) (c : config) : option config :=
  t ← tasks c !! tid;
  match at_pc t with
  | AwaitChildren ids =>
      if all_done (tasks c) ids then Some (set_pc tid Done c) else None
  | p =>
      '(g, s) ← resume (node_key t) p o (self c);
      Some (suspend_task tid s (observe t o (with_self g c)))
  end.

(** One choice of the event loop: which coroutine runs next, and with what
    outcome of the call it awaited. *)
Inductive choice := RunMain (o : outcome) | RunTask (tid : nat) (o : outcome).

Definition running (c : config) : bool :=
  match main c with
  | MReturned _ | MRaised _ => false
  | _ => true
  end.

(** One step of the event loop; [None] when the chosen coroutine cannot
    run.  Nothing runs once [run] has returned or raised. *)
Definition step (ch : choice) (c : config) : option config :=
  if running c then
    match ch with
    | RunMain o => step_main o c
    | RunTask tid o => step_task tid o c
    end
  else None.

(** A schedule: the choices of the event loop, in order. *)
Fixpoint exec (sched : list choice) (c : config) : option config :=
  match sched with
  | [] => Some c
  | ch :: sched => step ch c ≫= exec sched
  end.

(** The configurations a run on input [d] can be in. *)
Definition reachable (d : GeneratorParams) (c : config) : Prop :=
  ∃ sched, exec sched (init d) = Some c.

(** * Properties *)

(** ** Root keys *)

Lemma elem_of_find_root_keys (g : Generator) (k : Key) :
  k ∈ find_root_keys g ↔
  (∃ s, k = Some s ∧ is_Some (nodes g !! s)) ∧ ¬ ∃ e, e ∈ edges g ∧ to_node e = k.
Proof.
  unfold find_root_keys. cbv zeta.
  rewrite elem_of_difference, elem_of_map, elem_of_list_to_set, list_elem_of_fmap.
  split.
  - intros [(s & -> & Hs) Hno]. split.
    + exists s. split; [done|]. by apply elem_of_dom.
    + intros (e & He & Heq). apply Hno. by exists e.
  - intros [(s & -> & Hs) Hno]. split.
    + exists s. split; [done|]. by apply elem_of_dom.
    + intros (e & Heq & He). apply Hno. by exists e.
Qed.

(** C5. The root keys are the node keys that no edge names as its target:
    a key is a root exactly when it is a key of [nodes] and is the [to_node]
    of no edge.  So a node that occurs as an edge source and never as a
    target is a root, and a graph with no nodes has no roots. *)
Theorem find_root_keys_spec (g : Generator) :
  (∀ k : Key, k ∈ find_root_keys g ↔
     (∃ s, k = Some s ∧ is_Some (nodes g !! s)) ∧
     ¬ ∃ e, e ∈ edges g ∧ to_node e = k) ∧
  (∀ s : string, is_Some (nodes g !! s) →
     (∃ e, e ∈ edges g ∧ from_node e = Some s) →
     (∀ e, e ∈ edges g → to_node e ≠ Some s) →
     Some s ∈ find_root_keys g) ∧
  (nodes g = ∅ → find_root_keys g = ∅).
Proof.
  split; [|split].
  - apply elem_of_find_root_keys.
  - intros s Hs _ Hno. apply elem_of_find_root_keys. split; [by exists s|].
    intros (e & He & Heq). by apply (Hno e).
  - intros Hn. apply set_eq. intros k. rewrite elem_of_find_root_keys, Hn.
    split; [|set_solver]. intros [(s & _ & Hs) _].
    rewrite lookup_empty in Hs. by destruct Hs.
Qed.

(** ** Final status *)

(** Some entry of the executed-node map has status [st]. *)
Definition has_status (g : Generator) (st : Status) : Prop :=
  ∃ k n, executed_nodes g !! k = Some n ∧ status n = name st.

Lemma existsb_statuses (g : Generator) (st : Status) :
  existsb (λ s, bool_decide (s = name st))
          (status <$> (map_to_list (executed_nodes g)).*2) = true
  ↔ has_status g st.
Proof.
  rewrite existsb_exists. unfold has_status. split.
  - intros (s & Hin & Hs). apply bool_decide_eq_true in Hs.
    apply list_elem_of_In, list_elem_of_fmap in Hin as (n & -> & Hn).
    apply list_elem_of_fmap in Hn as ([k n'] & -> & Hkn).
    apply elem_of_map_to_list in Hkn. by exists k, n'.
  - intros (k & n & Hk & Hs). exists (status n). split.
    + apply list_elem_of_In, list_elem_of_fmap. exists n. split; [done|].
      apply list_elem_of_fmap. exists (k, n). split; [done|].
      by apply elem_of_map_to_list.
    + by apply bool_decide_eq_true.
Qed.

(** C6. The final status is FAILED as soon as one entry is FAILED, whatever
    the others are; without a FAILED entry it is PENDING if one entry is
    PENDING; otherwise it is COMPLETED, which is the case of the empty map. *)
Theorem determine_final_status_spec (g : Generator) :
  (has_status g FAILED → determine_final_status g = FAILED) ∧
  (¬ has_status g FAILED → has_status g PENDING →
     determine_final_status g = PENDING) ∧
  (¬ has_status g FAILED → ¬ has_status g PENDING →
     determine_final_status g = COMPLETED) ∧
  (executed_nodes g = ∅ → determine_final_status g = COMPLETED).
Proof.
  unfold determine_final_status. cbv zeta.
  pose proof (existsb_statuses g FAILED) as HF.
  pose proof (existsb_statuses g PENDING) as HP.
  destruct (existsb (λ s, bool_decide (s = name FAILED)) _);
    destruct (existsb (λ s, bool_decide (s = name PENDING)) _).
  all: split; [|split; [|split]].
  all: try (intros Hf; apply HF in Hf; done).
  all: try (intros Hnf; exfalso; apply Hnf, HF; done).
  all: try (intros _ Hp; apply HP in Hp; done).
  all: try (intros _ Hnp; exfalso; apply Hnp, HP; done).
  all: try done.
  all: intros He; exfalso.
  all: first [ destruct HF as [[k [n [Hk _]]] _]; [done|]
             | destruct HP as [[k [n [Hk _]]] _]; [done|] ].
  all: by rewrite He, lookup_empty in Hk.
Qed.

(** ** Persistence guard *)

(** C10. While no execution record has been created ([execution_id] is
    still [None]), [update_node_output] and [update_execution_status]
    return at their guard: neither awaits a patch call, whatever its
    arguments. *)
Theorem update_without_execution_id (g : Generator) :
  execution_id g = None →
  (∀ node_key result st, update_node_output g node_key result st = None) ∧
  (∀ st, update_execution_status g st = None).
Proof.
  intros Hid. unfold update_node_output, update_execution_status.
  rewrite Hid. done.
Qed.

Lemma update_without_execution_id_witness :
  execution_id __init__ = None ∧
  (∀ node_key result st, update_node_output __init__ node_key result st = None) ∧
  (∀ st, update_execution_status __init__ st = None).
Proof.
  split; [reflexivity | apply (update_without_execution_id __init__); reflexivity].
Defined.

(** The empty string is falsy too. *)
Lemma update_with_empty_execution_id (g : Generator) :
  execution_id g = Some "" →
  (∀ node_key result st, update_node_output g node_key result st = None) ∧
  (∀ st, update_execution_status g st = None).
Proof.
  intros Hid. unfold update_node_output, update_execution_status.
  rewrite Hid. done.
Qed.

(** ** Steps of one task *)

Definition mk_task (k : Key) (p : pc) : task := {| node_key := k; at_pc := p |}.

Lemma lookup_set_pc (c : config) (tid : nat) (k : Key) (p p' : pc) :
  tasks c !! tid = Some (mk_task k p) →
  tasks (set_pc tid p' c) !! tid = Some (mk_task k p').
Proof.
  intros Ht. unfold set_pc. simpl. rewrite list_lookup_alter_eq, Ht. done.
Qed.

Lemma length_set_pc (c : config) (tid : nat) (p : pc) :
  length (tasks (set_pc tid p c)) = length (tasks c).
Proof. unfold set_pc. simpl. by rewrite length_alter. Qed.

Lemma update_node_output_patch (g : Generator) k r st (call : Call) :
  update_node_output g k r st = Some call →
  ∃ e p u, call = PatchExecution e p u.
Proof.
  unfold update_node_output. destruct (execution_id g) as [eid|]; [|done].
  destruct (String.eqb eid ""); [done|]. intros [= <-]. eauto.
Qed.

(** The SKIPPED entry of [_handle_skipped_node]. *)
Definition skipped_state : NodeState :=
  {| status := "SKIPPED";
     output := JObj [("error", JStr "Skipped due to previous node failure")] |}.

(** C2. A task that starts [execute_node] while the failure flag is set
    records its node as SKIPPED with the fixed message, whatever the edges
    are; it makes no call but the persistence patch, creates no task, and
    is finished as soon as that patch (if any) has been acknowledged. *)
Theorem execute_node_skips_when_failed :
  (∀ c tid k o,
     running c = true →
     tasks c !! tid = Some (mk_task k Start) →
     _workflow_failed (self c) = true →
     ∃ c', step (RunTask tid o) c = Some c' ∧
       executed_nodes (self c') !! k = Some skipped_state ∧
       length (tasks c') = length (tasks c) ∧
       ((calls c' = calls c ∧ tasks c' !! tid = Some (mk_task k Done)) ∨
        (∃ e p u, calls c' = (calls c ++ [PatchExecution e p u])%list ∧
           tasks c' !! tid = Some (mk_task k AwaitPatchSkipped)))) ∧
  (∀ c tid k v,
     running c = true →
     tasks c !! tid = Some (mk_task k AwaitPatchSkipped) →
     ∃ c', step (RunTask tid (Returned v)) c = Some c' ∧
       self c' = self c ∧ calls c' = calls c ∧
       length (tasks c') = length (tasks c) ∧
       tasks c' !! tid = Some (mk_task k Done)).
Proof.
  split.
  - intros c tid k o Hrun Ht Hflag.
    unfold step, step_task. rewrite Hrun, Ht. simpl.
    unfold execute_node. rewrite Hflag. unfold _handle_skipped_node.
    destruct (update_node_output _ k _ _) as [call|] eqn:Hup; simpl.
    + destruct (update_node_output_patch _ _ _ _ _ Hup) as (e & p & u & ->).
      eexists. split; [reflexivity|]. split; [|split].
      * simpl. apply lookup_insert_eq.
      * by rewrite length_set_pc.
      * right. exists e, p, u. split; [done|]. by apply lookup_set_pc with Start.
    + eexists. split; [reflexivity|]. split; [|split].
      * simpl. apply lookup_insert_eq.
      * by rewrite length_set_pc.
      * left. split; [done|]. by apply lookup_set_pc with Start.
  - intros c tid k v Hrun Ht.
    unfold step, step_task. rewrite Hrun, Ht. simpl.
    eexists. split; [reflexivity|]. repeat split.
    + by rewrite length_set_pc.
    + by apply lookup_set_pc with AwaitPatchSkipped.
Qed.

Definition failed_state (msg : string) : NodeState :=
  {| status := "FAILED"; output := JObj [("error", JStr msg)] |}.

(** C3. When the operation a task dispatched raises with message [msg],
    the node is recorded FAILED with output [{error: msg}] and no child
    task is created; the coroutine then persists the record, sets the
    failure flag and finishes, again without creating any task. *)
Theorem failed_execution_recorded :
  (∀ c tid k msg,
     running c = true →
     tasks c !! tid = Some (mk_task k AwaitActivity) →
     ∃ c', step (RunTask tid (Raised msg)) c = Some c' ∧
       executed_nodes (self c') !! k = Some (failed_state msg) ∧
       length (tasks c') = length (tasks c) ∧
       ((calls c' = calls c ∧ _workflow_failed (self c') = true ∧
           tasks c' !! tid = Some (mk_task k Done)) ∨
        (∃ e p u, calls c' = (calls c ++ [PatchExecution e p u])%list ∧
           tasks c' !! tid = Some (mk_task k AwaitPatchFailed)))) ∧
  (∀ c tid k v,
     running c = true →
     tasks c !! tid = Some (mk_task k AwaitPatchFailed) →
     ∃ c', step (RunTask tid (Returned v)) c = Some c' ∧
       _workflow_failed (self c') = true ∧
       executed_nodes (self c') = executed_nodes (self c) ∧
       calls c' = calls c ∧
       length (tasks c') = length (tasks c) ∧
       tasks c' !! tid = Some (mk_task k Done)).
Proof.
  split.
  - intros c tid k msg Hrun Ht.
    unfold step, step_task. rewrite Hrun, Ht. simpl.
    unfold _handle_failed_execution.
    destruct (update_node_output _ k _ _) as [call|] eqn:Hup; simpl.
    + destruct (update_node_output_patch _ _ _ _ _ Hup) as (e & p & u & ->).
      eexists. split; [reflexivity|]. split; [|split].
      * simpl. apply lookup_insert_eq.
      * by rewrite length_set_pc.
      * right. exists e, p, u. split; [done|].
        by apply lookup_set_pc with AwaitActivity.
    + eexists. split; [reflexivity|]. split; [|split].
      * simpl. apply lookup_insert_eq.
      * by rewrite length_set_pc.
      * left. repeat split. by apply lookup_set_pc with AwaitActivity.
  - intros c tid k v Hrun Ht.
    unfold step, step_task. rewrite Hrun, Ht. simpl.
    eexists. split; [reflexivity|]. repeat split.
    + by rewrite length_set_pc.
    + by apply lookup_set_pc with AwaitPatchFailed.
Qed.

(** ** The failure flag *)

Lemma self_finalize_execution (c : config) : self (finalize_execution c) = self c.
Proof. unfold finalize_execution. by destruct (update_execution_status _ _). Qed.

Lemma self_gather_roots (r : gset Key) (c : config) : self (gather_roots r c) = self c.
Proof.
  unfold gather_roots. destruct (elements r); [apply self_finalize_execution|done].
Qed.

Lemma self_set_executing (r : gset Key) (c : config) : self (set_executing r c) = self c.
Proof.
  unfold set_executing.
  destruct (update_execution_status _ _); [done|apply self_gather_roots].
Qed.

Lemma self_initialize_root_nodes (r : gset Key) (rest : list Key) (c : config) :
  self (initialize_root_nodes r rest c) = self c.
Proof.
  induction rest as [|key rest IH]; simpl; [apply self_set_executing|].
  by destruct (update_node_output _ _ _ _).
Qed.

Lemma resume_workflow_failed (k : Key) (p : pc) (o : outcome) (g g' : Generator)
    (s : suspend) :
  resume k p o g = Some (g', s) →
  _workflow_failed g = true → _workflow_failed g' = true.
Proof.
  unfold resume, execute_node, _handle_skipped_node, _process_node_execution,
    _handle_successful_execution, _handle_failed_execution, _process_child_nodes.
  intros Hres Hflag.
  repeat (case_match; simplify_eq/=); done.
Qed.

Lemma step_main_workflow_failed (o : outcome) (c c' : config) :
  step_main o c = Some c' →
  _workflow_failed (self c) = true → _workflow_failed (self c') = true.
Proof.
  unfold step_main, process_root_nodes, initialize_execution.
  intros Hstep Hflag.
  repeat (case_match; simplify_eq/=);
    rewrite ?self_initialize_root_nodes, ?self_gather_roots,
      ?self_finalize_execution; try done.
  destruct (executionId _); simplify_eq/=. done.
Qed.

Lemma self_suspend_task (tid : nat) (s : suspend) (c : config) :
  self (suspend_task tid s c) = self c.
Proof. by destruct s as [? ?|[|? ?]| |?]. Qed.

Lemma self_observe (t : task) (o : outcome) (c : config) :
  self (observe t o c) = self c.
Proof. unfold observe. by destruct (at_pc t). Qed.

(** The two ways a task steps: it joins its finished children, or it is
    resumed with an outcome. *)
Lemma step_task_inv (tid : nat) (o : outcome) (c c' : config) :
  step_task tid o c = Some c' →
  ∃ t, tasks c !! tid = Some t ∧
    ((∃ ids, at_pc t = AwaitChildren ids ∧ all_done (tasks c) ids = true ∧
        c' = set_pc tid Done c) ∨
     (∃ g s, resume (node_key t) (at_pc t) o (self c) = Some (g, s) ∧
        c' = suspend_task tid s (observe t o (with_self g c)))).
Proof.
  unfold step_task. intros Hstep.
  destruct (tasks c !! tid) as [t|]; [|done].
  exists t. split; [done|].
  lazy beta iota delta [mbind option_bind] in Hstep.
  destruct (at_pc t) eqn:Hpc; lazy beta iota in Hstep.
  7: { left. destruct (all_done _ _) eqn:Hd; simplify_eq. eauto. }
  all: right; destruct (resume _ _ _ _) as [[g s]|] eqn:Hres;
    lazy beta iota in Hstep; simplify_eq; eauto.
Qed.

Lemma step_task_workflow_failed (tid : nat) (o : outcome) (c c' : config) :
  step_task tid o c = Some c' →
  _workflow_failed (self c) = true → _workflow_failed (self c') = true.
Proof.
  intros Hstep Hflag.
  apply step_task_inv in Hstep as (t & Ht & [(ids & _ & _ & ->)|(g & s & Hres & ->)]).
  - done.
  - rewrite self_suspend_task, self_observe. simpl.
    by eapply resume_workflow_failed.
Qed.

(** C9. The failure flag is false when the run starts, and no step of the
    event loop, hence no run however scheduled, turns a set flag back to
    false. *)
Theorem workflow_failed_is_one_way :
  (∀ d, _workflow_failed (self (init d)) = false) ∧
  (∀ ch c c', step ch c = Some c' →
     _workflow_failed (self c) = true → _workflow_failed (self c') = true) ∧
  (∀ sched c c', exec sched c = Some c' →
     _workflow_failed (self c) = true → _workflow_failed (self c') = true).
Proof.
  assert (∀ ch c c', step ch c = Some c' →
     _workflow_failed (self c) = true → _workflow_failed (self c') = true) as Hstep.
  { intros ch c c'. unfold step. destruct (running c); [|done].
    destruct ch; [apply step_main_workflow_failed|apply step_task_workflow_failed]. }
  split; [done|]. split; [done|].
  induction sched as [|ch sched IH]; simpl; intros c c' Hexec Hflag.
  - by simplify_eq.
  - destruct (step ch c) as [c1|] eqn:Hs; simplify_eq/=.
    eapply IH; [done|]. by eapply Hstep.
Qed.

(** ** Launching children *)

(** [child] is a direct child of [key]: some edge leads from [key] to it. *)
Definition direct_child (g : Generator) (key child : Key) : Prop :=
  ∃ e, e ∈ edges g ∧ from_node e = key ∧ to_node e = child.

(** Every precomputed dependency of [child] is a key of [executed_nodes]. *)
Definition dependencies_present (g : Generator) (child : Key) : Prop :=
  ∀ dep, dep ∈ dependencies_get g child → is_Some (executed_nodes g !! dep).

Lemma elem_of_children (g : Generator) (key child : Key) :
  child ∈ children g key ↔ direct_child g key child.
Proof.
  unfold children, direct_child.
  rewrite elem_of_list_to_set, list_elem_of_fmap. split.
  - intros (e & -> & He). apply list_elem_of_filter in He as [Hf He]. eauto.
  - intros (e & He & Hf & <-). exists e. split; [done|].
    by apply list_elem_of_filter.
Qed.

Lemma is_ready_true (g : Generator) (child : Key) :
  is_ready g child = true ↔ dependencies_present g child.
Proof.
  unfold is_ready, dependencies_present. rewrite forallb_forall. split.
  - intros H dep Hdep. eapply bool_decide_eq_true_1, H.
    by apply list_elem_of_In, elem_of_elements.
  - intros H dep Hdep. apply bool_decide_eq_true_2, H.
    by apply elem_of_elements, list_elem_of_In.
Qed.

Lemma elem_of_ready_children (g : Generator) (key child : Key) :
  child ∈ ready_children g key ↔
  direct_child g key child ∧ dependencies_present g child.
Proof.
  unfold ready_children.
  rewrite list_elem_of_filter, elem_of_elements, elem_of_children, is_ready_true.
  tauto.
Qed.

Lemma NoDup_ready_children (g : Generator) (key : Key) :
  NoDup (ready_children g key).
Proof. apply NoDup_filter, NoDup_elements. Qed.

(** The keys for which a suspension creates tasks. *)
Definition launched (s : suspend) : list Key :=
  match s with
  | Gathering keys => keys
  | _ => []
  end.

Lemma tasks_suspend_task (tid : nat) (s : suspend) (c : config) :
  tid < length (tasks c) →
  length (tasks (suspend_task tid s c)) = length (tasks c) + length (launched s) ∧
  drop (length (tasks c)) (tasks (suspend_task tid s c)) = new_tasks (launched s).
Proof.
  intros Hlt.
  assert (∀ p, length (tasks (set_pc tid p c)) = length (tasks c) + 0 ∧
               drop (length (tasks c)) (tasks (set_pc tid p c)) = []) as Hset.
  { intros p. unfold set_pc. simpl. rewrite length_alter. split; [lia|].
    apply drop_ge. by rewrite length_alter. }
  destruct s as [k p|[|key keys]| |e]; simpl; try apply Hset.
  - unfold set_pc. simpl. rewrite length_alter, length_app. split.
    { simpl. unfold new_tasks. by rewrite length_fmap. }
    rewrite alter_app_l by done.
    rewrite <-(length_alter (λ t, {| node_key := node_key t;
      at_pc := AwaitChildren (length (tasks c) :: seq (S (length (tasks c))) (length keys)) |})
      (tasks c) tid) at 1.
    apply drop_app_length.
  - split; [lia|]. by apply drop_ge.
Qed.

Lemma process_child_nodes_spec (key : Key) (g : Generator) :
  ∃ s, _process_child_nodes key g = (g, s) ∧
    NoDup (launched s) ∧
    (_workflow_failed g = true → launched s = []) ∧
    (_workflow_failed g = false →
       ∀ child, child ∈ launched s ↔
         direct_child g key child ∧ dependencies_present g child).
Proof.
  unfold _process_child_nodes. destruct (_workflow_failed g).
  - exists Finished. repeat split; [constructor|done..].
  - exists (Gathering (ready_children g key)). simpl.
    split; [done|]. split; [apply NoDup_ready_children|]. split; [done|].
    intros _ child. apply elem_of_ready_children.
Qed.

(** C4, as the code has it.  When a task resumes after the patch that
    persisted its node's SUCCESS, the tasks it creates are one per key of a
    duplicate-free list [keys]: if the failure flag is not set, [keys] holds
    exactly the direct children of the node all of whose precomputed
    dependencies are keys of the executed-node map (whatever status they
    were recorded with); if the flag is set, [keys] is empty.  The same
    holds when the SUCCESS needs no patch (falsy execution id), for the map
    with the SUCCESS recorded. *)
Theorem ready_children_launched_unless_failed :
  (∀ c tid k v,
     running c = true →
     tasks c !! tid = Some (mk_task k AwaitPatchSuccess) →
     ∃ c' keys, step (RunTask tid (Returned v)) c = Some c' ∧
       self c' = self c ∧
       drop (length (tasks c)) (tasks c') = new_tasks keys ∧
       NoDup keys ∧
       (_workflow_failed (self c) = true → keys = []) ∧
       (_workflow_failed (self c) = false →
          ∀ child, child ∈ keys ↔
            direct_child (self c) k child ∧
            dependencies_present (self c) child)) ∧
  (∀ c tid k v,
     running c = true →
     tasks c !! tid = Some (mk_task k AwaitActivity) →
     update_node_output (self c) k (Some v) (Some SUCCESS) = None →
     ∃ c' keys, step (RunTask tid (Returned v)) c = Some c' ∧
       self c' = record_result k SUCCESS v (self c) ∧
       drop (length (tasks c)) (tasks c') = new_tasks keys ∧
       NoDup keys ∧
       (_workflow_failed (self c) = true → keys = []) ∧
       (_workflow_failed (self c) = false →
          ∀ child, child ∈ keys ↔
            direct_child (self c') k child ∧
            dependencies_present (self c') child)) ∧
  (∀ g m child,
     dom m = dom (executed_nodes g) →
     is_ready (set_executed_nodes m g) child = is_ready g child).
Proof.
  split; [|split].
  - intros c tid k v Hrun Ht.
    destruct (process_child_nodes_spec k (self c)) as (s & Hs & Hnd & Hf & Hr).
    unfold step, step_task. rewrite Hrun, Ht. simpl. rewrite Hs. simpl.
    assert (tid < length (tasks c)) as Hlt by (by eapply lookup_lt_Some).
    eexists _, (launched s). split; [reflexivity|].
    rewrite self_suspend_task. split; [by destruct c|].
    split; [|done].
    by destruct (tasks_suspend_task tid s
      (observe (mk_task k AwaitPatchSuccess) (Returned v)
         (with_self (self c) c))) as [_ Hd].
  - intros c tid k v Hrun Ht Hup.
    destruct (process_child_nodes_spec k (record_result k SUCCESS v (self c)))
      as (s & Hs & Hnd & Hf & Hr).
    unfold step, step_task. rewrite Hrun, Ht. simpl.
    unfold _handle_successful_execution.
    replace (update_node_output (record_result k SUCCESS v (self c)) k
               (Some v) (Some SUCCESS)) with (@None Call) by done.
    rewrite Hs. simpl.
    assert (tid < length (tasks c)) as Hlt by (by eapply lookup_lt_Some).
    eexists _, (launched s). split; [reflexivity|].
    rewrite self_suspend_task. simpl. split; [done|].
    split; [|done].
    by destruct (tasks_suspend_task tid s
      (observe (mk_task k AwaitActivity) (Returned v)
         (with_self (record_result k SUCCESS v (self c)) c))) as [_ Hd].
  - intros g m child Hdom.
    apply eq_true_iff_eq. rewrite !is_ready_true.
    unfold dependencies_present. simpl.
    change (dependencies_get (set_executed_nodes m g) child)
      with (dependencies_get g child).
    split; intros H dep Hdep; apply elem_of_dom; [rewrite <-Hdom|rewrite Hdom];
      apply elem_of_dom; by apply H.
Qed.

(** ** Scenarios *)

Definition node (activity : string) : Node :=
  {| activity_id := activity; params := [] |}.

Definition edge (a b : string) : Edge :=
  {| from_node := Some a; to_node := Some b |}.

(** A run request for the graph with the given node keys and edges. *)
Definition workflow (keys : list string) (es : list Edge) : GeneratorParams :=
  {| dag := {| dag_edges := es;
               dag_nodes := list_to_map ((λ k, (k, node "report")) <$> keys) |};
     data_user_id := "user"; dataset_id := "dataset"; workflow_id := "workflow" |}.

(** An acknowledgement of a patch, and the answer of the record creation. *)
Definition ack : outcome := Returned (JObj []).
Definition created : outcome := Returned (JObj [("executionId", JStr "exec-1")]).

(** Roots [x] and [y], and [z] depending on [x] only: [y] fails while [x]
    is in flight, then [x] succeeds. *)
Definition failed_sibling : GeneratorParams :=
  workflow ["x"; "y"; "z"] [edge "x" "z"].

Definition failed_sibling_schedule : list choice :=
  [ RunMain ack; RunMain created; RunMain ack; RunMain ack; RunMain ack;
    RunTask 0 ack; RunTask 1 ack; RunTask 0 ack; RunTask 1 ack;
    RunTask 1 (Raised "boom"); RunTask 1 ack;
    RunTask 0 (Returned (JStr "rx")) ].

(** C4 as stated fails: [x] has completed successfully, [z] is a direct
    child of [x] and its only dependency [x] is in the executed-node map,
    yet resuming [x]'s task creates no task for [z], because the failure
    flag was set by [y] in the meantime. *)
Lemma ready_child_not_launched_after_failure :
  ∃ c c',
    exec failed_sibling_schedule (init failed_sibling) = Some c ∧
    tasks c = [mk_task (Some "x") AwaitPatchSuccess; mk_task (Some "y") Done] ∧
    executed_nodes (self c) !! Some "x"
      = Some {| status := "SUCCESS"; output := JStr "rx" |} ∧
    direct_child (self c) (Some "x") (Some "z") ∧
    dependencies_present (self c) (Some "z") ∧
    step (RunTask 0 ack) c = Some c' ∧
    tasks c' = [mk_task (Some "x") Done; mk_task (Some "y") Done].
Proof.
  eexists _, _. split; [vm_compute; reflexivity|].
  split; [vm_compute; reflexivity|].
  split; [vm_compute; reflexivity|].
  match goal with
  | |- direct_child ?g ?k ?child ∧ _ =>
      destruct (proj1 (elem_of_ready_children g k child)) as [Hc Hd];
        [vm_compute; apply list_elem_of_here|]
  end.
  split; [exact Hc|]. split; [exact Hd|].
  split; vm_compute; reflexivity.
Qed.

(** *** Two parents completing together *)

(** The node operations dispatched so far. *)
Definition is_node_activity (k : Call) : bool :=
  match k with
  | NodeActivity _ _ => true
  | _ => false
  end.

Definition dispatches (c : config) : list Call :=
  List.filter is_node_activity (calls c).

(** Roots [a] and [b], and [c] depending on both. *)
Definition diamond : GeneratorParams :=
  workflow ["a"; "b"; "c"] [edge "a" "c"; edge "b" "c"].

(** Both operations return, each result is recorded and its patch awaited;
    only then are the two patches acknowledged, so each parent finds both
    dependencies of [c] recorded when it looks for ready children. *)
Definition diamond_schedule : list choice :=
  [ RunMain ack; RunMain created; RunMain ack; RunMain ack; RunMain ack;
    RunTask 0 ack; RunTask 1 ack; RunTask 0 ack; RunTask 1 ack;
    RunTask 0 (Returned (JStr "r0")); RunTask 1 (Returned (JStr "r1"));
    RunTask 0 ack; RunTask 1 ack;
    RunTask 2 ack; RunTask 3 ack; RunTask 2 ack; RunTask 3 ack;
    RunTask 2 (Returned (JStr "c-first")); RunTask 3 (Returned (JStr "c-second"));
    RunTask 2 ack; RunTask 3 ack;
    RunTask 0 ack; RunTask 1 ack; RunMain ack; RunMain ack ].

(** C8 fails on the code.  On the acyclic graph [diamond] there is an
    interleaving in which node [c] gets two tasks, its operation is
    dispatched twice and its result is recorded twice (the second result
    overwrites the first), although the run returns normally. *)
Theorem diamond_child_dispatched_twice :
  ∃ c r,
    exec diamond_schedule (init diamond) = Some c ∧
    main c = MReturned r ∧
    node_key <$> tasks c = [Some "b"; Some "a"; Some "c"; Some "c"] ∧
    dispatches c =
      [ NodeActivity "report" (JObj [("node_name", JStr "b")]);
        NodeActivity "report" (JObj [("node_name", JStr "a")]);
        NodeActivity "report" (JObj [("node_name", JStr "c")]);
        NodeActivity "report" (JObj [("node_name", JStr "c")]) ] ∧
    observed c =
      [ (Some "b", Returned (JStr "r0")); (Some "a", Returned (JStr "r1"));
        (Some "c", Returned (JStr "c-first"));
        (Some "c", Returned (JStr "c-second")) ] ∧
    r !! Some "c" = Some {| status := "SUCCESS"; output := JStr "c-second" |}.
Proof.
  eexists _, _. split; [vm_compute; reflexivity|].
  repeat split; vm_compute; reflexivity.
Qed.

(** ** Edges with a missing endpoint *)

Definition set_edges (es : list Edge) (g : Generator) : Generator :=
  set_graph (user_id g) (nodes g) es g.

Lemma elem_of_dependencies_of (es : list Edge) (n : string) (dep : Key) :
  dep ∈ dependencies_of es n ↔
  ∃ e, e ∈ es ∧ to_node e = Some n ∧ from_node e = dep.
Proof.
  unfold dependencies_of. rewrite elem_of_list_to_set, list_elem_of_fmap. split.
  - intros (e & -> & He). apply list_elem_of_filter in He as [Ht He]. eauto.
  - intros (e & He & Ht & <-). exists e. split; [done|].
    by apply list_elem_of_filter.
Qed.

Lemma lookup_precompute_dependencies (g : Generator) (n : string) :
  _node_dependencies (_precompute_dependencies g) !! n =
  if decide (is_Some (nodes g !! n)) then Some (dependencies_of (edges g) n)
  else None.
Proof.
  unfold _precompute_dependencies. simpl. case_decide as Hn.
  - apply lookup_set_to_map; [by intros ?? _ _ [=]|].
    exists n. split; [by apply elem_of_dom|done].
  - apply eq_None_not_Some. intros [d Hd].
    apply lookup_set_to_map in Hd as (n' & Hn' & [= <- _]); [|by intros ?? _ _ [=]].
    by apply Hn, elem_of_dom.
Qed.

(** The half-edge into [n]: [p] is the only real predecessor of [n]. *)
Definition half_edge : GeneratorParams :=
  workflow ["p"; "n"]
    [edge "p" "n"; {| from_node := None; to_node := Some "n" |}].

Definition half_edge_schedule : list choice :=
  [ RunMain ack; RunMain created; RunMain ack; RunMain ack;
    RunTask 0 ack; RunTask 0 ack; RunTask 0 (Returned (JStr "rp"));
    RunTask 0 ack; RunMain ack; RunMain ack ].

(** C7 as stated fails: the edge [{from: None, to: n}] puts [None] into the
    dependency set of [n] and keeps [n] from being launched after [p] has
    succeeded: the run returns with [p] alone, whereas without that edge
    [n] is a ready child of [p] at the same point. *)
Lemma half_edge_blocks_child :
  ∃ c r c0,
    exec half_edge_schedule (init half_edge) = Some c ∧
    main c = MReturned r ∧
    dependencies_get (self c) (Some "n") = {[None; Some "p"]} ∧
    ready_children (self c) (Some "p") = [] ∧
    r !! Some "p" = Some {| status := "SUCCESS"; output := JStr "rp" |} ∧
    r !! Some "n" = None ∧
    exec (take 7 half_edge_schedule) (init (workflow ["p"; "n"] [edge "p" "n"]))
      = Some c0 ∧
    ready_children (self c0) (Some "p") = [Some "n"].
Proof.
  eexists _, _, _. split; [vm_compute; reflexivity|].
  do 5 (split; [vm_compute; reflexivity|]).
  split; vm_compute; reflexivity.
Qed.

(** C7, as the code has it.  An edge whose [to_node] is missing changes
    neither the dependency index nor the root keys: it may be dropped from
    the edge list.  An edge whose [from_node] is missing and whose
    [to_node] is a node [n] is not ignored: [None] is in the dependency set
    of [n], [n] is not a root, and [n] passes the readiness test only when
    the executed-node map has an entry under [None]. *)
Theorem edges_with_missing_endpoint :
  (∀ g e l1 l2,
     to_node e = None → edges g = (l1 ++ e :: l2)%list →
     _node_dependencies (_precompute_dependencies g)
       = _node_dependencies (_precompute_dependencies (set_edges (l1 ++ l2) g)) ∧
     find_root_keys g = find_root_keys (set_edges (l1 ++ l2) g)) ∧
  (∀ g e n,
     e ∈ edges g → from_node e = None → to_node e = Some n →
     is_Some (nodes g !! n) →
     None ∈ dependencies_get (_precompute_dependencies g) (Some n) ∧
     (Some n ∉ find_root_keys g) ∧
     (is_ready (_precompute_dependencies g) (Some n) = true →
        is_Some (executed_nodes g !! None))).
Proof.
  split.
  - intros g e l1 l2 Hto Hes.
    assert (∀ e' k, to_node e' = Some k →
              e' ∈ (l1 ++ e :: l2)%list ↔ e' ∈ (l1 ++ l2)%list) as Hin.
    { intros e' k Hk. rewrite !elem_of_app, elem_of_cons.
      split; [intros [?|[->|?]]|intros [?|?]]; auto. congruence. }
    split.
    + apply map_eq. intros n. rewrite !lookup_precompute_dependencies. simpl.
      case_decide; [|done]. f_equal. apply set_eq. intros dep.
      rewrite !elem_of_dependencies_of, Hes.
      split; intros (e' & He' & Ht & Hf); exists e';
        (split; [by eapply Hin|done]).
    + apply set_eq. intros k.
      rewrite !elem_of_find_root_keys. simpl. rewrite Hes.
      split; intros [(s & -> & Hs) Hno]; (split; [by exists s|]);
        intros (e' & He' & Ht); apply Hno; exists e';
        (split; [by eapply Hin|done]).
  - intros g e n He Hf Ht Hn.
    assert (None ∈ dependencies_get (_precompute_dependencies g) (Some n)) as Hdep.
    { unfold dependencies_get. rewrite lookup_precompute_dependencies.
      rewrite decide_True by done. simpl.
      apply elem_of_dependencies_of. eauto. }
    split; [done|]. split.
    + rewrite elem_of_find_root_keys. intros [_ Hno]. apply Hno. eauto.
    + intros Hr. apply is_ready_true in Hr. by apply (Hr None).
Qed.

(** ** Scenario B: the root fails *)

(** Root [a] with children [b] and [c]. *)
Definition scenario_B : GeneratorParams :=
  workflow ["a"; "b"; "c"] [edge "a" "b"; edge "a" "c"].

Definition scenario_B_schedule : list choice :=
  [ RunMain ack; RunMain created; RunMain ack; RunMain ack;
    RunTask 0 ack; RunTask 0 ack; RunTask 0 (Raised "boom"); RunTask 0 ack;
    RunMain ack; RunMain ack ].

(** C1 as stated fails: when the operation of [a] raises, the run returns a
    map in which [a] is FAILED and the final status is FAILED, but [b] and
    [c] have no entry at all: they are never dispatched, so nothing records
    them as SKIPPED. *)
Lemma scenario_B_children_have_no_entry :
  ∃ c r,
    exec scenario_B_schedule (init scenario_B) = Some c ∧
    main c = MReturned r ∧
    observed c = [(Some "a", Raised "boom")] ∧
    r !! Some "a" = Some (failed_state "boom") ∧
    r !! Some "b" = None ∧
    r !! Some "c" = None ∧
    determine_final_status (self c) = FAILED.
Proof.
  eexists _, _. split; [vm_compute; reflexivity|].
  repeat split; vm_compute; reflexivity.
Qed.

Definition key_a : Key := Some "a".

(** Program points before the outcome of the node operation is known. *)
Definition early_pc (p : pc) : bool :=
  match p with
  | Start | AwaitPatchExecuting _ | AwaitActivity => true
  | _ => false
  end.

(** Program points of [run] from the gather of the roots on. *)
Definition gathered (m : main_pc) : bool :=
  match m with
  | MAwaitRoots _ | MAwaitFinal | MReturned _ => true
  | _ => false
  end.

Definition returns_executed (c : config) : Prop :=
  ∀ r, main c = MReturned r → r = executed_nodes (self c).

Definition no_edge_into_a (g : Generator) : Prop :=
  ∀ e, e ∈ edges g → to_node e ≠ key_a.

(** What a run of scenario B can look like: [run] has raised; or nothing is
    loaded yet; or the graph is loaded and no task exists; or the only task
    is that of [a], before the outcome of its operation; or the operation
    of [a] has raised, and the task of [a] is still the only one; or the
    operation of [a] has returned. *)
Inductive scenario_B_inv (c : config) : Prop :=
  | B_raised e :
      main c = MRaised e → scenario_B_inv c
  | B_init :
      data c = scenario_B → self c = __init__ → tasks c = [] →
      observed c = [] → main c = MStart ∨ main c = MAwaitCreate →
      scenario_B_inv c
  | B_loaded :
      no_edge_into_a (self c) → executed_nodes (self c) = ∅ →
      _workflow_failed (self c) = false → tasks c = [] → observed c = [] →
      main c = MAwaitRootInit {[key_a]} [] ∨
        main c = MAwaitStatusExecuting {[key_a]} →
      scenario_B_inv c
  | B_pending p :
      no_edge_into_a (self c) → executed_nodes (self c) = ∅ →
      _workflow_failed (self c) = false → tasks c = [mk_task key_a p] →
      early_pc p = true → observed c = [] → main c = MAwaitRoots [0] →
      scenario_B_inv c
  | B_failed msg p :
      executed_nodes (self c) = {[key_a := failed_state msg]} →
      tasks c = [mk_task key_a p] → p = AwaitPatchFailed ∨ p = Done →
      observed c = [(key_a, Raised msg)] → gathered (main c) = true →
      returns_executed c →
      scenario_B_inv c
  | B_succeeded p rest :
      no_edge_into_a (self c) → tasks c = mk_task key_a p :: rest →
      early_pc p = false → Forall (λ t, node_key t ≠ key_a) rest →
      (∀ msg, (key_a, Raised msg) ∉ observed c) → gathered (main c) = true →
      scenario_B_inv c.

Lemma find_root_keys_scenario_B (g : Generator) :
  nodes g = dag_nodes (dag scenario_B) →
  edges g = dag_edges (dag scenario_B) →
  find_root_keys g = {[key_a]}.
Proof.
  unfold find_root_keys. intros -> ->. vm_compute. reflexivity.
Qed.

Lemma no_edge_into_a_scenario_B (g : Generator) :
  edges g = dag_edges (dag scenario_B) → no_edge_into_a g.
Proof.
  intros He e. rewrite He. simpl. rewrite !elem_of_cons, elem_of_nil.
  intros [->|[->|[]]]; done.
Qed.

(** From the gather of the roots on. *)
Lemma scenario_B_gather_roots (c : config) :
  no_edge_into_a (self c) → executed_nodes (self c) = ∅ →
  _workflow_failed (self c) = false → tasks c = [] → observed c = [] →
  scenario_B_inv (gather_roots {[key_a]} c).
Proof.
  intros He Hx Hf Ht Ho. unfold gather_roots.
  rewrite elements_singleton. simpl.
  apply B_pending with Start; simpl; rewrite ?Ht; done.
Qed.

Lemma scenario_B_set_executing (c : config) :
  no_edge_into_a (self c) → executed_nodes (self c) = ∅ →
  _workflow_failed (self c) = false → tasks c = [] → observed c = [] →
  scenario_B_inv (set_executing {[key_a]} c).
Proof.
  intros He Hx Hf Ht Ho. unfold set_executing.
  destruct (update_execution_status _ _).
  - apply B_loaded; simpl; auto.
  - by apply scenario_B_gather_roots.
Qed.

Lemma scenario_B_initialize_root_nodes (c : config) :
  no_edge_into_a (self c) → executed_nodes (self c) = ∅ →
  _workflow_failed (self c) = false → tasks c = [] → observed c = [] →
  scenario_B_inv (initialize_root_nodes {[key_a]} [key_a] c).
Proof.
  intros He Hx Hf Ht Ho. simpl.
  destruct (update_node_output _ _ _ _).
  - apply B_loaded; simpl; auto.
  - by apply scenario_B_set_executing.
Qed.

Lemma scenario_B_finalize (c : config) :
  gathered (main (finalize_execution c)) = true ∧
  returns_executed (finalize_execution c) ∧
  self (finalize_execution c) = self c ∧
  tasks (finalize_execution c) = tasks c ∧
  observed (finalize_execution c) = observed c.
Proof.
  unfold finalize_execution, returns_executed.
  destruct (update_execution_status _ _); simpl; repeat split; try done.
  by intros r [= <-].
Qed.

Lemma scenario_B_step_main (o : outcome) (c c' : config) :
  scenario_B_inv c → step_main o c = Some c' → scenario_B_inv c'.
Proof.
  intros Hinv Hstep. unfold step_main in Hstep.
  destruct Hinv as [e Hm|Hd Hs Ht Ho [Hm|Hm]|He Hx Hf Ht Ho [Hm|Hm]
                   |p He Hx Hf Ht Hp Ho Hm|msg p Hx Ht Hp Ho Hm Hr
                   |p rest He Ht Hp Hrest Ho Hm].
  - by rewrite Hm in Hstep.
  - rewrite Hm in Hstep. simplify_eq. apply B_init; simpl; auto.
  - rewrite Hm in Hstep. destruct o as [response|e]; simplify_eq;
      [|by eapply B_raised].
    unfold initialize_execution in Hstep.
    destruct (executionId response) as [eid|]; simpl in Hstep; simplify_eq;
      [|by eapply B_raised].
    unfold process_root_nodes. rewrite Hd, Hs.
    rewrite find_root_keys_scenario_B by done. rewrite elements_singleton.
    apply scenario_B_initialize_root_nodes; simpl; try done.
    by apply no_edge_into_a_scenario_B.
  - rewrite Hm in Hstep. destruct o as [v|e]; simplify_eq;
      [|by eapply B_raised].
    by apply scenario_B_set_executing.
  - rewrite Hm in Hstep. destruct o as [v|e]; simplify_eq;
      [|by eapply B_raised].
    by apply scenario_B_gather_roots.
  - rewrite Hm, Ht in Hstep. by destruct p.
  - destruct (scenario_B_finalize c) as (Hg & Hre & Hs' & Ht' & Ho').
    destruct (main c) eqn:Hmain; try done.
    + destruct (all_done _ _); simplify_eq.
      apply B_failed with msg p; by rewrite ?Hs', ?Ht', ?Ho'.
    + destruct o as [v|e]; simplify_eq; [|by eapply B_raised].
      apply B_failed with msg p; try done. by intros r [= <-].
  - destruct (scenario_B_finalize c) as (Hg & Hre & Hs' & Ht' & Ho').
    destruct (main c) eqn:Hmain; try done.
    + destruct (all_done _ _); simplify_eq.
      apply B_succeeded with p rest; by rewrite ?Hs', ?Ht', ?Ho'.
    + destruct o as [v|e]; simplify_eq; [|by eapply B_raised].
      by apply B_succeeded with p rest.
Qed.

(** What resuming a coroutine cannot do: change the edges, create tasks for
    anything but ready children of its node, or go back before the outcome
    of the node operation. *)
Lemma resume_edges k p o g g' s :
  resume k p o g = Some (g', s) → edges g' = edges g.
Proof.
  unfold resume, execute_node, _handle_skipped_node, _process_node_execution,
    _handle_successful_execution, _handle_failed_execution, _process_child_nodes.
  intros Hres. repeat (case_match; simplify_eq/=); done.
Qed.

Lemma resume_launched k p o g g' s child :
  resume k p o g = Some (g', s) → child ∈ launched s → direct_child g' k child.
Proof.
  unfold resume, execute_node, _handle_skipped_node, _process_node_execution,
    _handle_successful_execution, _handle_failed_execution, _process_child_nodes,
    dispatch.
  intros Hres. repeat (case_match; simplify_eq/=);
    try (by intros ?%elem_of_nil);
    by intros [? _]%elem_of_ready_children.
Qed.

Lemma resume_not_early k p o g g' call p' :
  resume k p o g = Some (g', Awaiting call p') →
  early_pc p = false → early_pc p' = false.
Proof.
  unfold resume, execute_node, _handle_skipped_node, _process_node_execution,
    _handle_successful_execution, _handle_failed_execution, _process_child_nodes,
    dispatch.
  intros Hres. repeat (case_match; simplify_eq/=); done.
Qed.

Lemma new_tasks_not_a (g : Generator) (k : Key) (keys : list Key) :
  no_edge_into_a g → (∀ child, child ∈ keys → direct_child g k child) →
  Forall (λ t, node_key t ≠ key_a) (new_tasks keys).
Proof.
  intros He Hk. unfold new_tasks. apply Forall_fmap, Forall_forall.
  intros child Hc. simpl. destruct (Hk child Hc) as (e & Hin & _ & <-).
  by apply He.
Qed.

(** A step of some task once the operation of [a] is known to have returned
    (or is returning in this very step). *)
Lemma scenario_B_resumed (c : config) tid t o g s p rest :
  no_edge_into_a (self c) →
  tasks c = mk_task key_a p :: rest →
  Forall (λ t, node_key t ≠ key_a) rest →
  gathered (main c) = true →
  tasks c !! tid = Some t →
  resume (node_key t) (at_pc t) o (self c) = Some (g, s) →
  (∀ msg, (key_a, Raised msg) ∉ observed (observe t o c)) →
  (∀ call p', s = Awaiting call p' → tid = 0 → early_pc p' = false) →
  (tid ≠ 0 → early_pc p = false) →
  scenario_B_inv (suspend_task tid s (observe t o (with_self g c))).
Proof.
  intros He Ht Hrest Hm Htid Hres Ho Hp' Hp.
  assert (no_edge_into_a g) as He'.
  { intros e. rewrite (resume_edges _ _ _ _ _ _ Hres). apply He. }
  assert (Forall (λ t, node_key t ≠ key_a) (new_tasks (launched s))) as Hnew.
  { eapply new_tasks_not_a; [done|]. intros child.
    by apply (resume_launched _ _ _ _ _ _ _ Hres). }
  assert (∀ c0, observed (observe t o (with_self g c0)) = observed (observe t o c0))
    as Hobs by (intros c0; unfold observe; by destruct (at_pc t)).
  assert (∀ c0, tasks (observe t o (with_self g c0)) = tasks c0 ∧
                main (observe t o (with_self g c0)) = main c0 ∧
                self (observe t o (with_self g c0)) = g)
    as Hsame by (intros c0; unfold observe; by destruct (at_pc t)).
  destruct (Hsame c) as (Hts & Hmn & Hsf).
  specialize (Hobs c).
  set (c1 := observe t o (with_self g c)) in *.
  assert (∀ q, ∃ p1 rest1,
            tasks (set_pc tid q c1) = mk_task key_a p1 :: rest1 ∧
            Forall (λ t, node_key t ≠ key_a) rest1 ∧
            (tid = 0 → p1 = q) ∧ (tid ≠ 0 → p1 = p)) as Hset.
  { intros q. unfold set_pc. simpl. rewrite Hts, Ht.
    destruct tid as [|n]; simpl.
    - exists q, rest. repeat split; done.
    - exists p, (alter (λ t0, {| node_key := node_key t0; at_pc := q |}) n rest).
      repeat split; try done.
      apply Forall_alter; [done|]. by intros [k' p'] _ Hk'. }
  assert (∀ p1, (tid = 0 → early_pc p1 = false) → (tid ≠ 0 → p1 = p) →
                early_pc p1 = false) as Hearly.
  { intros p1 H0 H1. destruct (decide (tid = 0)); [auto|]. rewrite H1; auto. }
  destruct s as [call p'|[|key keys]| |e]; simpl.
  - destruct (Hset p') as (p1 & rest1 & Ht1 & Hr1 & H0 & H1).
    apply B_succeeded with p1 rest1; simpl; rewrite ?Hsf, ?Hmn, ?Hobs; try done.
    apply Hearly; [|done]. intros ->. rewrite H0 by done. by eapply Hp'.
  - destruct (Hset Done) as (p1 & rest1 & Ht1 & Hr1 & H0 & H1).
    apply B_succeeded with p1 rest1; simpl; rewrite ?Hsf, ?Hmn, ?Hobs; try done.
    apply Hearly; [|done]. intros ->. by rewrite H0.
  - set (q := AwaitChildren _).
    destruct (Hset q) as (p1 & rest1 & Ht1 & Hr1 & H0 & H1).
    apply B_succeeded with p1 (rest1 ++ new_tasks (key :: keys))%list;
      simpl; rewrite ?Hsf, ?Hmn, ?Hobs; try done.
    + unfold set_pc in Ht1. simpl in Ht1. rewrite alter_app_l, Ht1; [done|].
      rewrite Hts. by eapply lookup_lt_Some.
    + apply Hearly; [|done]. intros ->. by rewrite H0.
    + by apply Forall_app.
  - destruct (Hset Done) as (p1 & rest1 & Ht1 & Hr1 & H0 & H1).
    apply B_succeeded with p1 rest1; simpl; rewrite ?Hsf, ?Hmn, ?Hobs; try done.
    apply Hearly; [|done]. intros ->. by rewrite H0.
  - by eapply B_raised.
Qed.

Lemma scenario_B_step_task (tid : nat) (o : outcome) (c c' : config) :
  scenario_B_inv c → running c = true → step_task tid o c = Some c' →
  scenario_B_inv c'.
Proof.
  intros Hinv Hrun Hstep.
  apply step_task_inv in Hstep as (t & Htid & Hcase).
  destruct Hinv as [e Hm|Hd Hs Ht Ho Hm|He Hx Hf Ht Ho Hm
                   |p He Hx Hf Ht Hp Ho Hm|msg p Hx Ht Hp Ho Hm Hr
                   |p rest He Ht Hp Hrest Ho Hm].
  - unfold running in Hrun. by rewrite Hm in Hrun.
  - by rewrite Ht, lookup_nil in Htid.
  - by rewrite Ht, lookup_nil in Htid.
  - rewrite Ht in Htid. destruct tid as [|n]; [|by rewrite lookup_cons, lookup_nil in Htid].
    simpl in Htid. injection Htid as <-.
    destruct Hcase as [(ids & Hpc & _)|(g & s & Hres & ->)].
    { simpl in Hpc. by rewrite Hpc in Hp. }
    simpl in Hres. destruct p; try done.
    + simpl in Hres. unfold execute_node in Hres. rewrite Hf in Hres.
      unfold _process_node_execution, dispatch in Hres.
      repeat (case_match; simplify_eq/=); try (by eapply B_raised).
      all: eapply B_pending; simpl; rewrite ?Ht; simpl; done.
    + destruct o as [v|e]; simpl in Hres; simplify_eq; [|by eapply B_raised].
      unfold dispatch. simpl.
      eapply B_pending; simpl; rewrite ?Ht; simpl; done.
    + destruct o as [v|msg].
      * apply scenario_B_resumed with AwaitActivity []; try done.
        -- by rewrite Hm.
        -- by rewrite Ht.
        -- unfold observe. simpl. rewrite Ho. intros msg.
           by intros [=]%list_elem_of_singleton.
        -- intros call p' -> _. simpl in Hres.
           unfold _handle_successful_execution, _process_child_nodes in Hres.
           by repeat (case_match; simplify_eq/=).
      * simpl in Hres. unfold _handle_failed_execution in Hres.
        repeat (case_match; simplify_eq/=).
        all: eapply B_failed with (msg := msg);
          simpl; rewrite ?Ht, ?Hx, ?Ho, ?Hm, ?insert_empty; simpl; try done;
          try (by left); try (by right);
          try (intros r Hret; simpl in Hret; by rewrite Hm in Hret).
  - rewrite Ht in Htid. destruct tid as [|n]; [|by rewrite lookup_cons, lookup_nil in Htid].
    simpl in Htid. injection Htid as <-.
    destruct Hcase as [(ids & Hpc & _)|(g & s & Hres & ->)].
    { simpl in Hpc. by destruct Hp as [->| ->]. }
    simpl in Hres. destruct Hp as [->| ->]; [|done].
    destruct o as [v|e]; simpl in Hres; simplify_eq; [|by eapply B_raised].
    eapply B_failed with (msg := msg) (p := Done);
      simpl; rewrite ?Ht; simpl; try done.
    by right.
  - destruct Hcase as [(ids & Hpc & _ & ->)|(g & s & Hres & ->)].
    + unfold set_pc. rewrite Ht in *. destruct tid as [|n]; simpl in *.
      * injection Htid as <-.
        by apply B_succeeded with Done rest; simpl; rewrite ?Ht.
      * apply B_succeeded with p
          (alter (λ t0, {| node_key := node_key t0; at_pc := Done |}) n rest);
          simpl; rewrite ?Ht; try done.
        apply Forall_alter; [done|]. by intros [k' p'] _ Hk'.
    + apply scenario_B_resumed with p rest; try done.
      * intros msg. unfold observe.
        destruct (at_pc t) eqn:Hpc; simpl; try apply Ho.
        rewrite elem_of_app, list_elem_of_singleton. intros [Hin|[= Hk _]].
        { by apply (Ho msg). }
        rewrite Ht in Htid. destruct tid as [|n]; simpl in Htid.
        -- injection Htid as <-. simpl in Hpc. by rewrite Hpc in Hp.
        -- apply list_elem_of_lookup_2 in Htid.
           by apply (proj1 (Forall_forall _ _) Hrest t).
      * intros call p' -> ->. rewrite Ht in Htid. simpl in Htid.
        injection Htid as <-. simpl in Hres.
        by eapply resume_not_early.
Qed.

Lemma scenario_B_step (ch : choice) (c c' : config) :
  scenario_B_inv c → step ch c = Some c' → scenario_B_inv c'.
Proof.
  intros Hinv. unfold step. destruct (running c) eqn:Hrun; [|done].
  destruct ch as [o|tid o].
  - by apply scenario_B_step_main.
  - by apply scenario_B_step_task.
Qed.

Lemma scenario_B_exec (sched : list choice) (c c' : config) :
  scenario_B_inv c → exec sched c = Some c' → scenario_B_inv c'.
Proof.
  revert c. induction sched as [|ch sched IH]; simpl; intros c Hinv Hexec.
  - by simplify_eq.
  - destruct (step ch c) as [c1|] eqn:Hstep; [|done]. simpl in Hexec.
    eapply IH; [|done]. by eapply scenario_B_step.
Qed.

(** The configuration in which [scenario_B_schedule] ends. *)
Definition scenario_B_final : config :=
  Eval vm_compute in
    default (init scenario_B) (exec scenario_B_schedule (init scenario_B)).

(** C1, as the code has it.  In every run of scenario B, however scheduled
    and whatever the collaborators answer: if the operation of [a] raises
    with message [msg] and the run returns, the returned map is exactly
    [{a: FAILED with {error: msg}}], so [b] and [c] have no entry in it
    (they are never dispatched), and the final status is FAILED. *)
Theorem scenario_B_result (sched : list choice) (c : config)
    (r : gmap Key NodeState) (msg : string) :
  exec sched (init scenario_B) = Some c →
  main c = MReturned r →
  (key_a, Raised msg) ∈ observed c →
  r = {[key_a := failed_state msg]} ∧
  r !! Some "b" = None ∧ r !! Some "c" = None ∧
  determine_final_status (self c) = FAILED.
Proof.
  intros Hexec Hmain Hobs.
  assert (scenario_B_inv c) as Hinv.
  { eapply scenario_B_exec; [|done]. by apply B_init; auto. }
  destruct Hinv as [e Hm|Hd Hs Ht Ho Hm|He Hx Hf Ht Ho Hm
                   |p He Hx Hf Ht Hp Ho Hm|msg' p Hx Ht Hp Ho Hm Hr
                   |p rest He Ht Hp Hrest Ho Hm];
    try (by rewrite Ho in Hobs; apply elem_of_nil in Hobs);
    try congruence.
  - rewrite Ho in Hobs. apply list_elem_of_singleton in Hobs as [= ->].
    rewrite (Hr r Hmain), Hx. split; [done|]. split; [done|]. split; [done|].
    unfold determine_final_status. by rewrite Hx, map_to_list_singleton.
  - by destruct (Ho msg).
Qed.

Lemma scenario_B_result_witness :
  exec scenario_B_schedule (init scenario_B) = Some scenario_B_final ∧
  main scenario_B_final = MReturned (executed_nodes (self scenario_B_final)) ∧
  (key_a, Raised "boom") ∈ observed scenario_B_final ∧
  executed_nodes (self scenario_B_final) = {[key_a := failed_state "boom"]} ∧
  executed_nodes (self scenario_B_final) !! Some "b" = None ∧
  executed_nodes (self scenario_B_final) !! Some "c" = None ∧
  determine_final_status (self scenario_B_final) = FAILED.
Proof.
  assert (exec scenario_B_schedule (init scenario_B) = Some scenario_B_final)
    as H1 by (vm_compute; reflexivity).
  assert (main scenario_B_final
          = MReturned (executed_nodes (self scenario_B_final)))
    as H2 by (vm_compute; reflexivity).
  assert ((key_a, Raised "boom") ∈ observed scenario_B_final)
    as H3 by (vm_compute; apply list_elem_of_here).
  split; [exact H1|]. split; [exact H2|]. split; [exact H3|].
  exact (scenario_B_result scenario_B_schedule scenario_B_final
           (executed_nodes (self scenario_B_final)) "boom" H1 H2 H3).
Defined.

(** ** The properties at work on concrete runs *)

(** In [failed_sibling]: [x] succeeds and launches [z] while the patch of
    the failed [y] is still awaited; the flag is set before [z] starts. *)
Definition skipped_child_schedule : list choice :=
  [ RunMain ack; RunMain created; RunMain ack; RunMain ack; RunMain ack;
    RunTask 0 ack; RunTask 1 ack; RunTask 0 ack; RunTask 1 ack;
    RunTask 0 (Returned (JStr "rx")); RunTask 1 (Raised "boom");
    RunTask 0 ack; RunTask 1 ack ].

Definition skipped_child_config : config :=
  Eval vm_compute in
    default (init failed_sibling)
      (exec skipped_child_schedule (init failed_sibling)).

Definition skipped_child_after : config :=
  Eval vm_compute in
    default skipped_child_config (step (RunTask 2 ack) skipped_child_config).

(** Both roots of [failed_sibling] wait for their operations. *)
Definition both_dispatched_config : config :=
  Eval vm_compute in
    default (init failed_sibling)
      (exec (take 9 failed_sibling_schedule) (init failed_sibling)).

(** Both roots of [diamond] have recorded their results and wait for the
    patches. *)
Definition both_recorded_config : config :=
  Eval vm_compute in
    default (init diamond) (exec (take 11 diamond_schedule) (init diamond)).

(** The workflow instance of [half_edge] once the graph is loaded. *)
Definition half_edge_loaded : Generator :=
  Eval vm_compute in
    self (default (init half_edge)
            (exec (take 2 half_edge_schedule) (init half_edge))).

Lemma execute_node_skips_when_failed_witness :
  exec skipped_child_schedule (init failed_sibling) = Some skipped_child_config ∧
  running skipped_child_config = true ∧
  tasks skipped_child_config !! 2 = Some (mk_task (Some "z") Start) ∧
  _workflow_failed (self skipped_child_config) = true ∧
  ∃ c', step (RunTask 2 ack) skipped_child_config = Some c' ∧
    executed_nodes (self c') !! Some "z" = Some skipped_state ∧
    length (tasks c') = length (tasks skipped_child_config) ∧
    ((calls c' = calls skipped_child_config ∧
        tasks c' !! 2 = Some (mk_task (Some "z") Done)) ∨
     (∃ e p u, calls c' = (calls skipped_child_config ++ [PatchExecution e p u])%list ∧
        tasks c' !! 2 = Some (mk_task (Some "z") AwaitPatchSkipped))).
Proof.
  assert (running skipped_child_config = true) as H1 by reflexivity.
  assert (tasks skipped_child_config !! 2 = Some (mk_task (Some "z") Start))
    as H2 by reflexivity.
  assert (_workflow_failed (self skipped_child_config) = true)
    as H3 by reflexivity.
  split; [vm_compute; reflexivity|].
  split; [exact H1|]. split; [exact H2|]. split; [exact H3|].
  exact (proj1 execute_node_skips_when_failed
           skipped_child_config 2 (Some "z") ack H1 H2 H3).
Defined.

Lemma failed_execution_recorded_witness :
  running both_dispatched_config = true ∧
  tasks both_dispatched_config !! 1 = Some (mk_task (Some "y") AwaitActivity) ∧
  ∃ c', step (RunTask 1 (Raised "boom")) both_dispatched_config = Some c' ∧
    executed_nodes (self c') !! Some "y" = Some (failed_state "boom") ∧
    length (tasks c') = length (tasks both_dispatched_config) ∧
    ((calls c' = calls both_dispatched_config ∧
        _workflow_failed (self c') = true ∧
        tasks c' !! 1 = Some (mk_task (Some "y") Done)) ∨
     (∃ e p u, calls c' = (calls both_dispatched_config ++ [PatchExecution e p u])%list ∧
        tasks c' !! 1 = Some (mk_task (Some "y") AwaitPatchFailed))).
Proof.
  assert (running both_dispatched_config = true) as H1 by reflexivity.
  assert (tasks both_dispatched_config !! 1
          = Some (mk_task (Some "y") AwaitActivity)) as H2 by reflexivity.
  split; [exact H1|]. split; [exact H2|].
  exact (proj1 failed_execution_recorded
           both_dispatched_config 1 (Some "y") "boom" H1 H2).
Defined.

Lemma workflow_failed_is_one_way_witness :
  step (RunTask 2 ack) skipped_child_config = Some skipped_child_after ∧
  _workflow_failed (self skipped_child_config) = true ∧
  _workflow_failed (self skipped_child_after) = true.
Proof.
  assert (step (RunTask 2 ack) skipped_child_config = Some skipped_child_after)
    as H1 by (vm_compute; reflexivity).
  assert (_workflow_failed (self skipped_child_config) = true)
    as H2 by reflexivity.
  split; [exact H1|]. split; [exact H2|].
  exact (proj1 (proj2 workflow_failed_is_one_way)
           (RunTask 2 ack) skipped_child_config skipped_child_after H1 H2).
Defined.

Lemma ready_children_launched_unless_failed_witness :
  running both_recorded_config = true ∧
  tasks both_recorded_config !! 0 = Some (mk_task (Some "b") AwaitPatchSuccess) ∧
  ∃ c' keys, step (RunTask 0 ack) both_recorded_config = Some c' ∧
    self c' = self both_recorded_config ∧
    drop (length (tasks both_recorded_config)) (tasks c') = new_tasks keys ∧
    NoDup keys ∧
    (_workflow_failed (self both_recorded_config) = true → keys = []) ∧
    (_workflow_failed (self both_recorded_config) = false →
       ∀ child, child ∈ keys ↔
         direct_child (self both_recorded_config) (Some "b") child ∧
         dependencies_present (self both_recorded_config) child).
Proof.
  assert (running both_recorded_config = true) as H1 by reflexivity.
  assert (tasks both_recorded_config !! 0
          = Some (mk_task (Some "b") AwaitPatchSuccess)) as H2 by reflexivity.
  split; [exact H1|]. split; [exact H2|].
  exact (proj1 ready_children_launched_unless_failed
           both_recorded_config 0 (Some "b") (JObj []) H1 H2).
Defined.

Lemma edges_with_missing_endpoint_witness :
  {| from_node := None; to_node := Some "n" |} ∈ edges half_edge_loaded ∧
  is_Some (nodes half_edge_loaded !! "n") ∧
  None ∈ dependencies_get (_precompute_dependencies half_edge_loaded) (Some "n") ∧
  (Some "n" ∉ find_root_keys half_edge_loaded) ∧
  (is_ready (_precompute_dependencies half_edge_loaded) (Some "n") = true →
     is_Some (executed_nodes half_edge_loaded !! None)).
Proof.
  assert ({| from_node := None; to_node := Some "n" |} ∈ edges half_edge_loaded)
    as H1 by (apply list_elem_of_further, list_elem_of_here).
  assert (is_Some (nodes half_edge_loaded !! "n"))
    as H2 by (eexists; reflexivity).
  split; [exact H1|]. split; [exact H2|].
  exact (proj2 edges_with_missing_endpoint half_edge_loaded
           {| from_node := None; to_node := Some "n" |} "n"
           H1 eq_refl eq_refl H2).
Defined.

(** * Further properties of the scheduler *)

(** ** Errors *)

(** [self.nodes[node_key]] for a key as the scheduler handles it. *)
Definition lookup_node (g : Generator) (node_key : Key) : option Node :=
  node_key ≫= (λ k, nodes g !! k).

(** An edge to a key that is no node: [p] succeeds and launches [ghost]. *)
Definition ghost_child : GeneratorParams := workflow ["p"] [edge "p" "ghost"].

Definition ghost_child_config : config :=
  Eval vm_compute in
    default (init ghost_child)
      (exec [ RunMain ack; RunMain created; RunMain ack; RunMain ack;
              RunTask 0 ack; RunTask 0 ack; RunTask 0 (Returned (JStr "rp"));
              RunTask 0 ack ] (init ghost_child)).

(** The failed root of [failed_sibling] awaits the patch of its FAILED
    record. *)
Definition failed_patch_config : config :=
  Eval vm_compute in
    default (init failed_sibling)
      (exec (take 10 failed_sibling_schedule) (init failed_sibling)).

(** Program points at which an exception of the awaited patch is not
    handled. *)
Definition unguarded_patch (p : pc) : bool :=
  match p with
  | AwaitPatchSkipped | AwaitPatchExecuting _ | AwaitPatchFailed => true
  | _ => false
  end.

(** X1. A task that starts, while the failure flag is not set, for a key that
    is no key of [nodes] (an edge target that is no node, or [None]) ends
    the run with a [KeyError]: nothing is recorded and no call is made. *)
Theorem unknown_node_raises (c : config) (tid : nat) (k : Key) (o : outcome) :
  running c = true →
  tasks c !! tid = Some (mk_task k Start) →
  _workflow_failed (self c) = false →
  lookup_node (self c) k = None →
  ∃ c', step (RunTask tid o) c = Some c' ∧
    main c' = MRaised ("KeyError: " ++ key_str k) ∧
    self c' = self c ∧ calls c' = calls c ∧ tasks c' = tasks c.
Proof.
  intros Hrun Ht Hflag Hk.
  unfold step, step_task. rewrite Hrun, Ht. simpl.
  unfold execute_node. rewrite Hflag. unfold _process_node_execution.
  replace (k ≫= (λ k0, (λ n, (k0, n)) <$> nodes (self c) !! k0))
    with (@None (string * Node)).
  { eexists. split; [reflexivity|]. by destruct c. }
  unfold lookup_node in Hk. destruct k as [s|]; simpl in *; [|done].
  by rewrite Hk.
Qed.

Lemma unknown_node_raises_witness :
  running ghost_child_config = true ∧
  tasks ghost_child_config !! 1 = Some (mk_task (Some "ghost") Start) ∧
  _workflow_failed (self ghost_child_config) = false ∧
  lookup_node (self ghost_child_config) (Some "ghost") = None ∧
  ∃ c', step (RunTask 1 ack) ghost_child_config = Some c' ∧
    main c' = MRaised ("KeyError: " ++ key_str (Some "ghost")) ∧
    self c' = self ghost_child_config ∧ calls c' = calls ghost_child_config ∧
    tasks c' = tasks ghost_child_config.
Proof.
  assert (running ghost_child_config = true) as H1 by reflexivity.
  assert (tasks ghost_child_config !! 1 = Some (mk_task (Some "ghost") Start))
    as H2 by reflexivity.
  assert (_workflow_failed (self ghost_child_config) = false)
    as H3 by reflexivity.
  assert (lookup_node (self ghost_child_config) (Some "ghost") = None)
    as H4 by reflexivity.
  split; [exact H1|]. split; [exact H2|]. split; [exact H3|]. split; [exact H4|].
  exact (unknown_node_raises ghost_child_config 1 (Some "ghost") ack H1 H2 H3 H4).
Defined.

(** X2. The [try] of [_process_node_execution] also covers the patch that
    persists a SUCCESS: when that patch raises, the node that had just been
    recorded as SUCCESS is recorded as FAILED with the error of the patch,
    and no child task is created. *)
Theorem success_patch_failure_recorded_as_failed
    (c : config) (tid : nat) (k : Key) (e : string) :
  running c = true →
  tasks c !! tid = Some (mk_task k AwaitPatchSuccess) →
  ∃ c', step (RunTask tid (Raised e)) c = Some c' ∧
    executed_nodes (self c') = <[k := failed_state e]> (executed_nodes (self c)) ∧
    length (tasks c') = length (tasks c) ∧
    observed c' = observed c.
Proof.
  intros Hrun Ht.
  unfold step, step_task. rewrite Hrun, Ht. simpl.
  unfold _handle_failed_execution.
  destruct (update_node_output _ k _ _); simpl;
    (eexists; split; [reflexivity|]); by rewrite length_set_pc.
Qed.

Lemma success_patch_failure_recorded_as_failed_witness :
  running both_recorded_config = true ∧
  tasks both_recorded_config !! 0 = Some (mk_task (Some "b") AwaitPatchSuccess) ∧
  ∃ c', step (RunTask 0 (Raised "store down")) both_recorded_config = Some c' ∧
    executed_nodes (self c')
      = <[Some "b" := failed_state "store down"]>
          (executed_nodes (self both_recorded_config)) ∧
    length (tasks c') = length (tasks both_recorded_config) ∧
    observed c' = observed both_recorded_config.
Proof.
  assert (running both_recorded_config = true) as H1 by reflexivity.
  assert (tasks both_recorded_config !! 0
          = Some (mk_task (Some "b") AwaitPatchSuccess)) as H2 by reflexivity.
  split; [exact H1|]. split; [exact H2|].
  exact (success_patch_failure_recorded_as_failed
           both_recorded_config 0 (Some "b") "store down" H1 H2).
Defined.

(** X3. Any other patch of a task that raises ends the run with that error and
    leaves the workflow instance as it was: in particular, when the patch
    that persists a FAILED record raises, the failure flag is not set. *)
Theorem unguarded_patch_failure_ends_run
    (c : config) (tid : nat) (k : Key) (p : pc) (e : string) :
  running c = true →
  tasks c !! tid = Some (mk_task k p) →
  unguarded_patch p = true →
  ∃ c', step (RunTask tid (Raised e)) c = Some c' ∧
    main c' = MRaised e ∧ self c' = self c ∧
    calls c' = calls c ∧ tasks c' = tasks c.
Proof.
  intros Hrun Ht Hp.
  unfold step, step_task. rewrite Hrun, Ht. simpl.
  destruct p; try done; simpl; (eexists; split; [reflexivity|]); by destruct c.
Qed.

Lemma unguarded_patch_failure_ends_run_witness :
  running failed_patch_config = true ∧
  tasks failed_patch_config !! 1 = Some (mk_task (Some "y") AwaitPatchFailed) ∧
  unguarded_patch AwaitPatchFailed = true ∧
  _workflow_failed (self failed_patch_config) = false ∧
  ∃ c', step (RunTask 1 (Raised "store down")) failed_patch_config = Some c' ∧
    main c' = MRaised "store down" ∧ self c' = self failed_patch_config ∧
    calls c' = calls failed_patch_config ∧ tasks c' = tasks failed_patch_config.
Proof.
  assert (running failed_patch_config = true) as H1 by reflexivity.
  assert (tasks failed_patch_config !! 1
          = Some (mk_task (Some "y") AwaitPatchFailed)) as H2 by reflexivity.
  split; [exact H1|]. split; [exact H2|]. split; [reflexivity|].
  split; [reflexivity|].
  exact (unguarded_patch_failure_ends_run failed_patch_config 1 (Some "y")
           AwaitPatchFailed "store down" H1 H2 eq_refl).
Defined.

(** ** The run before its first task *)

(** A creation answer carrying the execution id [eid]. *)
Definition created_as (eid : string) : outcome :=
  Returned (JObj [("executionId", JStr eid)]).


Lemma find_root_keys_no_nodes (g : Generator) :
  nodes g = ∅ → find_root_keys g = ∅.
Proof.
  intros Hn. apply set_eq. intros k. rewrite elem_of_find_root_keys, Hn.
  split; [|set_solver]. intros [(s & _ & Hs) _].
  rewrite lookup_empty in Hs. by destruct Hs.
Qed.

(** The status patch of [update_execution_status]. *)
Definition status_patch (eid : string) (user : string) (st : Status) : Call :=
  PatchExecution eid
    [ {| op := "replace"; path := "/status"; value := JStr (name st) |} ]
    (Some user).

(** The workflow instance once [initialize_execution] has loaded the graph
    of the request [d] under the execution id [eid]. *)
Definition loaded (d : GeneratorParams) (eid : string) (g : Generator)
    : Generator :=
  _precompute_dependencies
    (set_graph (Some (data_user_id d)) (dag_nodes (dag d)) (dag_edges (dag d))
       (set_execution_id (Some eid) g)).

Lemma exec_cons (ch : choice) (sched : list choice) (c c1 : config) :
  step ch c = Some c1 → exec (ch :: sched) c = exec sched c1.
Proof. intros H. simpl. by rewrite H. Qed.

Lemma step_created (c : config) (eid : string) :
  main c = MAwaitCreate →
  step (RunMain (created_as eid)) c
    = Some (process_root_nodes (with_self (loaded (data c) eid (self c)) c)).
Proof. intros Hm. unfold step, running, step_main. by rewrite Hm. Qed.

Lemma update_execution_status_set (g : Generator) (eid user : string)
    (st : Status) :
  execution_id g = Some eid → user_id g = Some user → eid ≠ "" →
  update_execution_status g st = Some (status_patch eid user st).
Proof.
  intros Hid Hu Hne. unfold update_execution_status, status_patch.
  rewrite Hid, Hu. by apply String.eqb_neq in Hne as ->.
Qed.

(** X5. A graph without nodes, whatever its edges: with a non-empty execution id
    the run sets the status to EXECUTING, creates no task, sets the status
    to COMPLETED and returns the empty map. *)
Theorem run_without_nodes (d : GeneratorParams) (eid : string)
    (o o1 o2 : json) :
  dag_nodes (dag d) = ∅ → eid ≠ "" →
  ∃ c, exec [ RunMain (Returned o); RunMain (created_as eid);
              RunMain (Returned o1); RunMain (Returned o2) ] (init d) = Some c ∧
    main c = MReturned ∅ ∧ tasks c = [] ∧
    calls c = [ CreateExecution (workflow_id d) (dataset_id d) "PENDING"
                  (data_user_id d);
                status_patch eid (data_user_id d) EXECUTING;
                status_patch eid (data_user_id d) COMPLETED ].
Proof.
  intros Hn Heid.
  erewrite exec_cons by reflexivity.
  erewrite exec_cons by (by apply step_created).
  unfold process_root_nodes.
  rewrite find_root_keys_no_nodes, elements_empty by done.
  cbn [initialize_root_nodes]. unfold set_executing.
  erewrite update_execution_status_set by done.
  erewrite exec_cons by reflexivity.
  unfold gather_roots. rewrite elements_empty. unfold finalize_execution.
  erewrite update_execution_status_set by done.
  erewrite exec_cons by reflexivity.
  eexists. split; [reflexivity|]. simpl.
  unfold determine_final_status. simpl. by rewrite map_to_list_empty.
Qed.

Lemma run_without_nodes_witness :
  dag_nodes (dag (workflow [] [edge "x" "y"])) = ∅ ∧ "exec-1" ≠ "" ∧
  ∃ c, exec [ RunMain ack; RunMain (created_as "exec-1"); RunMain ack;
              RunMain ack ] (init (workflow [] [edge "x" "y"])) = Some c ∧
    main c = MReturned ∅ ∧ tasks c = [] ∧
    calls c = [ CreateExecution "workflow" "dataset" "PENDING" "user";
                status_patch "exec-1" "user" EXECUTING;
                status_patch "exec-1" "user" COMPLETED ].
Proof.
  assert (dag_nodes (dag (workflow [] [edge "x" "y"])) = ∅) as H1 by reflexivity.
  assert ("exec-1" ≠ "") as H2 by discriminate.
  split; [exact H1|]. split; [exact H2|].
  exact (run_without_nodes (workflow [] [edge "x" "y"]) "exec-1"
           (JObj []) (JObj []) (JObj []) H1 H2).
Defined.

(** ** What one resumption does *)

(** The entry a resumption records for its node: SKIPPED when it starts
    under the failure flag, SUCCESS with the returned value, or FAILED with
    the message of the exception that reached the [except] clause. *)
Inductive recorded (g : Generator) (p : pc) (o : outcome) : NodeState → Prop :=
  | recorded_skipped :
      p = Start → _workflow_failed g = true → recorded g p o skipped_state
  | recorded_success v :
      p = AwaitActivity → o = Returned v →
      recorded g p o {| status := "SUCCESS"; output := v |}
  | recorded_failed e :
      p = AwaitActivity ∨ p = AwaitPatchSuccess → o = Raised e →
      recorded g p o (failed_state e).

(** Program points reached only after [self.nodes[node_key]] succeeded. *)
Definition needs_node (p : pc) : bool :=
  match p with
  | AwaitPatchExecuting _ | AwaitActivity | AwaitPatchSuccess
  | AwaitPatchFailed | AwaitChildren _ => true
  | _ => false
  end.

Definition is_node (g : Generator) (k : Key) : Prop :=
  ∃ s, k = Some s ∧ is_Some (nodes g !! s).

Ltac resume_cases H :=
  unfold resume, execute_node, _handle_skipped_node, _process_node_execution,
    _handle_successful_execution, _handle_failed_execution,
    _process_child_nodes, dispatch in H;
  repeat (case_match; simplify_eq/=).

Lemma bind_lookup_node (g : Generator) (k : Key) (s : string) (n : Node) :
  k ≫= (λ k0, (λ n0, (k0, n0)) <$> nodes g !! k0) = Some (s, n) →
  k = Some s ∧ nodes g !! s = Some n.
Proof.
  destruct k as [s'|]; simpl; [|done].
  destruct (nodes g !! s') eqn:Hs; simpl; [|done]. by intros [= <- <-].
Qed.

Lemma resume_frame k p o g g' s :
  resume k p o g = Some (g', s) →
  edges g' = edges g ∧ _node_dependencies g' = _node_dependencies g ∧
  execution_id g' = execution_id g ∧ user_id g' = user_id g ∧
  dom (nodes g') = dom (nodes g).
Proof.
  intros Hres. resume_cases Hres; repeat split; try done.
  all: match goal with
       | H : _ ≫= _ = Some _ |- _ =>
           destruct (bind_lookup_node _ _ _ _ H) as [_ Hn]
       end.
  all: rewrite dom_insert_L; apply subseteq_union_1_L, singleton_subseteq_l;
    by eapply elem_of_dom_2.
Qed.

Lemma resume_nodes k p o g g' s x n' :
  resume k p o g = Some (g', s) → nodes g' !! x = Some n' →
  nodes g !! x = Some n' ∨
  ∃ n, nodes g !! x = Some n ∧ n' = set_node_name x n ∧ k = Some x.
Proof.
  intros Hres Hx. resume_cases Hres; auto.
  all: match goal with
       | H : _ ≫= _ = Some _ |- _ =>
           destruct (bind_lookup_node _ _ _ _ H) as [-> Hn]
       end.
  all: rewrite lookup_insert in Hx; case_decide; simplify_eq; eauto.
Qed.

Lemma resume_executed k p o g g' s :
  resume k p o g = Some (g', s) →
  executed_nodes g' = executed_nodes g ∨
  ∃ n, executed_nodes g' = <[k := n]> (executed_nodes g) ∧ recorded g p o n.
Proof.
  intros Hres. resume_cases Hres; auto; right; eexists; (split; [reflexivity|]).
  all: first [ by apply recorded_skipped
             | by eapply recorded_success
             | eapply recorded_failed; by auto ].
Qed.

Lemma resume_ready k p o g g' s child :
  resume k p o g = Some (g', s) → child ∈ launched s →
  direct_child g' k child ∧ dependencies_present g' child.
Proof.
  intros Hres. resume_cases Hres;
    try (by intros ?%elem_of_nil);
    by intros ?%elem_of_ready_children.
Qed.

Lemma resume_needs_node k p o g g' call p' :
  resume k p o g = Some (g', Awaiting call p') →
  needs_node p' = true → needs_node p = true ∨ is_node g k.
Proof.
  intros Hres. resume_cases Hres; auto; intros _; right.
  all: match goal with
       | H : _ ≫= _ = Some _ |- _ =>
           destruct (bind_lookup_node _ _ _ _ H) as [-> Hn]
       end.
  all: by eexists.
Qed.

Lemma resume_gathers k p o g g' keys :
  resume k p o g = Some (g', Gathering keys) →
  needs_node p = true.
Proof. intros Hres. by resume_cases Hres. Qed.

(** ** Invariants of the workflow instance *)

Lemma exec_invariant (P : config → Prop) :
  (∀ ch c c', P c → step ch c = Some c' → P c') →
  ∀ sched c c', P c → exec sched c = Some c' → P c'.
Proof.
  intros Hstep. induction sched as [|ch sched IH]; simpl; intros c c' Hc Hexec.
  - by simplify_eq.
  - destruct (step ch c) as [c1|] eqn:Hs; [|done]. simpl in Hexec.
    eapply IH; [|done]. by eapply Hstep.
Qed.

Lemma reachable_invariant (d : GeneratorParams) (P : config → Prop) :
  P (init d) → (∀ ch c c', P c → step ch c = Some c' → P c') →
  ∀ c, reachable d c → P c.
Proof. intros H0 Hstep c [sched Hexec]. by eapply exec_invariant. Qed.

Lemma step_main_self (o : outcome) (c c' : config) :
  step_main o c = Some c' →
  self c' = self c ∨
  ∃ eid, main c = MAwaitCreate ∧ self c' = loaded (data c) eid (self c).
Proof.
  unfold step_main. intros Hstep.
  destruct (main c) eqn:Hm; destruct o as [v|e]; simplify_eq/=;
    rewrite ?self_initialize_root_nodes, ?self_gather_roots; auto.
  - unfold initialize_execution in Hstep.
    destruct (executionId v) as [eid|]; simplify_eq/=; [|by left].
    right. exists eid. split; [done|].
    unfold process_root_nodes. by rewrite self_initialize_root_nodes.
  - destruct (all_done _ _); simplify_eq. left. apply self_finalize_execution.
  - destruct (all_done _ _); simplify_eq. left. apply self_finalize_execution.
Qed.

(** A property of the workflow instance that holds initially and is kept
    by the loading of the graph and by every resumption of a task holds
    throughout every run. *)
Lemma generator_invariant (P : Generator → Prop) :
  P __init__ →
  (∀ d eid g, P g → P (loaded d eid g)) →
  (∀ k p o g g' s, P g → resume k p o g = Some (g', s) → P g') →
  ∀ d c, reachable d c → P (self c).
Proof.
  intros H0 Hload Hres d. apply reachable_invariant; [done|].
  intros ch c c' Hc. unfold step. destruct (running c); [|done].
  destruct ch as [o|tid o]; intros Hstep.
  - apply step_main_self in Hstep as [->|(eid & _ & ->)]; auto.
  - apply step_task_inv in Hstep as (t & _ & [(ids & _ & _ & ->)|(g & s & Hr & ->)]).
    + done.
    + rewrite self_suspend_task, self_observe. simpl. by eapply Hres.
Qed.

(** The three shapes of an entry of the executed-node map. *)
Definition terminal_entry (n : NodeState) : Prop :=
  status n = "SUCCESS" ∨ (∃ e, n = failed_state e) ∨ n = skipped_state.

Definition entries_ok (g : Generator) : Prop :=
  ∀ k n, executed_nodes g !! k = Some n →
    terminal_entry n ∧ (status n = "SKIPPED" → _workflow_failed g = true).

Lemma reachable_entries_ok (d : GeneratorParams) (c : config) :
  reachable d c → entries_ok (self c).
Proof.
  apply generator_invariant.
  - intros k n Hn. simpl in Hn. by rewrite lookup_empty in Hn.
  - by intros d' eid g Hg.
  - intros k p o g g' s Hg Hres k' n Hn.
    assert (∀ n0, terminal_entry n0 ∧
              (status n0 = "SKIPPED" → _workflow_failed g = true) →
              terminal_entry n0 ∧
              (status n0 = "SKIPPED" → _workflow_failed g' = true)) as Hmono.
    { intros n0 [H1 H2]. split; [done|]. intros Hs.
      eapply resume_workflow_failed; eauto. }
    destruct (resume_executed _ _ _ _ _ _ Hres) as [Hx|(n1 & Hx & Hrec)];
      rewrite Hx in Hn; [by apply Hmono, (Hg k')|].
    rewrite lookup_insert in Hn. case_decide; simplify_eq;
      [|by apply Hmono, (Hg k')].
    apply Hmono. destruct Hrec as [? Hf|v ? ?|e ? ?]; (split; [|done]).
    + by right; right.
    + by left.
    + right; left. by exists e.
Qed.

(** X6. Every entry of the executed-node map, at any moment of any run, is a
    SUCCESS, a FAILED with output [{error: message}] or the SKIPPED entry
    with the fixed message; no entry is ever PENDING or EXECUTING.  So
    [determine_final_status] never answers PENDING: the status persisted at
    the end of a run is FAILED or COMPLETED. *)
Theorem final_status_never_pending (d : GeneratorParams) (c : config) :
  reachable d c →
  (∀ k n, executed_nodes (self c) !! k = Some n → terminal_entry n) ∧
  (determine_final_status (self c) = FAILED ∨
   determine_final_status (self c) = COMPLETED).
Proof.
  intros Hr. pose proof (reachable_entries_ok d c Hr) as Hok.
  split; [intros k n Hn; by apply (Hok k n)|].
  unfold determine_final_status. cbv zeta.
  destruct (existsb _ _); [by left|].
  destruct (existsb _ _) eqn:HP; [|by right].
  apply existsb_statuses in HP as (k & n & Hn & Hs).
  destruct (Hok k n Hn) as [[H|[[e ->]| ->]] _]; simpl in *; congruence.
Qed.

Lemma scenario_B_final_reachable : reachable scenario_B scenario_B_final.
Proof. exists scenario_B_schedule. vm_compute. reflexivity. Defined.

Lemma final_status_never_pending_witness :
  reachable scenario_B scenario_B_final ∧
  (∀ k n, executed_nodes (self scenario_B_final) !! k = Some n →
     terminal_entry n) ∧
  (determine_final_status (self scenario_B_final) = FAILED ∨
   determine_final_status (self scenario_B_final) = COMPLETED).
Proof.
  split; [exact scenario_B_final_reachable|].
  exact (final_status_never_pending scenario_B scenario_B_final
           scenario_B_final_reachable).
Defined.

(** X7. A SKIPPED entry exists only in runs in which the failure flag is set,
    and it always carries the fixed message. *)
Theorem skipped_only_under_failure_flag (d : GeneratorParams) (c : config)
    (k : Key) (n : NodeState) :
  reachable d c →
  executed_nodes (self c) !! k = Some n → status n = "SKIPPED" →
  _workflow_failed (self c) = true ∧ n = skipped_state.
Proof.
  intros Hr Hn Hs. destruct (reachable_entries_ok d c Hr k n Hn) as [Ht Hf].
  split; [by apply Hf|].
  destruct Ht as [H|[[e ->]| ->]]; simpl in *; congruence.
Qed.

Lemma skipped_child_after_reachable : reachable failed_sibling skipped_child_after.
Proof.
  exists (skipped_child_schedule ++ [RunTask 2 ack])%list.
  vm_compute. reflexivity.
Defined.

Lemma skipped_only_under_failure_flag_witness :
  reachable failed_sibling skipped_child_after ∧
  executed_nodes (self skipped_child_after) !! Some "z" = Some skipped_state ∧
  status skipped_state = "SKIPPED" ∧
  _workflow_failed (self skipped_child_after) = true ∧
  skipped_state = skipped_state.
Proof.
  assert (executed_nodes (self skipped_child_after) !! Some "z"
          = Some skipped_state) as H2 by (vm_compute; reflexivity).
  split; [exact skipped_child_after_reachable|].
  split; [exact H2|]. split; [reflexivity|].
  exact (skipped_only_under_failure_flag failed_sibling skipped_child_after
           (Some "z") skipped_state skipped_child_after_reachable H2 eq_refl).
Defined.

(** ** The graph during a run *)

Lemma set_node_name_idemp (s : string) (n : Node) :
  set_node_name s (set_node_name s n) = set_node_name s n.
Proof.
  unfold set_node_name. simpl. f_equal. f_equal.
  rewrite filter_cons. rewrite decide_False by (simpl; by intros []).
  induction (params n) as [|f fs IH]; [done|].
  rewrite !filter_cons. destruct (decide (f.1 ≠ "node_name")); [|done].
  rewrite filter_cons. rewrite decide_True by done. by rewrite IH.
Qed.

(** What holds of the workflow instance from the moment
    [initialize_execution] has run: the execution id is set, the user and
    the edges are those of the request, the dependency index has one entry
    per node of the request, and every node is the node of the request,
    possibly with its [node_name] set to its key. *)
Definition graph_loaded (d : GeneratorParams) (g : Generator) : Prop :=
  is_Some (execution_id g) ∧
  user_id g = Some (data_user_id d) ∧
  edges g = dag_edges (dag d) ∧
  (∀ s, _node_dependencies g !! s =
        if decide (is_Some (dag_nodes (dag d) !! s))
        then Some (dependencies_of (dag_edges (dag d)) s) else None) ∧
  (∀ s, is_Some (nodes g !! s) ↔ is_Some (dag_nodes (dag d) !! s)) ∧
  (∀ s n', nodes g !! s = Some n' →
     ∃ n, dag_nodes (dag d) !! s = Some n ∧ (n' = n ∨ n' = set_node_name s n)).

Lemma graph_loaded_loaded (d : GeneratorParams) (eid : string) (g : Generator) :
  graph_loaded d (loaded d eid g).
Proof.
  unfold loaded. split_and!; try done.
  - intros s. by rewrite lookup_precompute_dependencies.
  - intros s n' Hs. exists n'. split; [done|by left].
Qed.

Lemma graph_loaded_resume d k p o g g' s :
  graph_loaded d g → resume k p o g = Some (g', s) → graph_loaded d g'.
Proof.
  intros (Hid & Hu & He & Hd & Hn & Hv) Hres.
  destruct (resume_frame _ _ _ _ _ _ Hres) as (He' & Hd' & Hid' & Hu' & Hn').
  split_and!.
  - by rewrite Hid'.
  - by rewrite Hu'.
  - by rewrite He'.
  - intros x. by rewrite Hd'.
  - intros x. rewrite <-Hn, <-!elem_of_dom. by rewrite Hn'.
  - intros x n' Hx.
    destruct (resume_nodes _ _ _ _ _ _ _ _ Hres Hx) as [Hx'|(n & Hx' & -> & _)].
    + by apply Hv.
    + destruct (Hv x n Hx') as (n0 & Hn0 & [->| ->]); exists n0; (split; [done|]).
      * by right.
      * right. apply set_node_name_idemp.
Qed.

(** A root has no precomputed dependency. *)
Lemma dependencies_get_root (d : GeneratorParams) (g : Generator) (k : Key) :
  graph_loaded d g → k ∈ find_root_keys g → dependencies_get g k = ∅.
Proof.
  intros (_ & _ & He & Hd & Hn & _) Hk.
  apply elem_of_find_root_keys in Hk as [(s & -> & Hs) Hno].
  simpl. rewrite Hd. apply Hn in Hs. rewrite decide_True by done. simpl.
  apply set_eq. intros dep. split; [|set_solver].
  intros (e & Hin & Ht & _)%elem_of_dependencies_of. exfalso.
  apply Hno. exists e. by rewrite He.
Qed.

(** The dependencies of a node are the sources of the edges into it. *)
Lemma dependencies_get_node (d : GeneratorParams) (g : Generator) (s : string) :
  graph_loaded d g → is_Some (nodes g !! s) →
  dependencies_get g (Some s) = dependencies_of (edges g) s.
Proof.
  intros (_ & _ & He & Hd & Hn & _) Hs. simpl. rewrite Hd, He.
  apply Hn in Hs. by rewrite decide_True.
Qed.

(** ** The tasks during a run *)

(** Program points after the result of the node has been recorded. *)
Definition after_record (p : pc) : bool :=
  match p with
  | AwaitPatchSkipped | AwaitPatchSuccess | AwaitPatchFailed
  | AwaitChildren _ | Done => true
  | _ => false
  end.

(** What holds of every task. *)
Definition task_ok (d : GeneratorParams) (g : Generator) (t : task) : Prop :=
  dependencies_present g (node_key t) ∧
  (needs_node (at_pc t) = true → is_node g (node_key t)) ∧
  (∀ nd, at_pc t = AwaitPatchExecuting nd →
     ∃ s n0, node_key t = Some s ∧ dag_nodes (dag d) !! s = Some n0 ∧
       nd = set_node_name s n0) ∧
  (after_record (at_pc t) = true → is_Some (executed_nodes g !! node_key t)) ∧
  (at_pc t = AwaitPatchSkipped → _workflow_failed g = true).

(** What a resumption keeps. *)
Definition extends (g g' : Generator) : Prop :=
  dom (executed_nodes g) ⊆ dom (executed_nodes g') ∧
  _node_dependencies g' = _node_dependencies g ∧
  (∀ s, is_Some (nodes g' !! s) ↔ is_Some (nodes g !! s)) ∧
  (_workflow_failed g = true → _workflow_failed g' = true).

Lemma resume_extends k p o g g' s :
  resume k p o g = Some (g', s) → extends g g'.
Proof.
  intros Hres.
  destruct (resume_frame _ _ _ _ _ _ Hres) as (_ & Hd & _ & _ & Hn).
  split_and!.
  - destruct (resume_executed _ _ _ _ _ _ Hres) as [->|(n & -> & _)]; [done|].
    rewrite dom_insert_L. apply union_subseteq_r.
  - done.
  - intros x. rewrite <-!elem_of_dom. by rewrite Hn.
  - intros Hf. eapply resume_workflow_failed; eauto.
Qed.

Lemma dependencies_present_extends g g' k :
  extends g g' → dependencies_present g k → dependencies_present g' k.
Proof.
  intros (Hx & Hd & _) Hk dep Hdep. apply elem_of_dom, Hx, elem_of_dom, Hk.
  destruct k; simpl in *; [|done]. by rewrite <-Hd.
Qed.

Lemma is_node_extends g g' k : extends g g' → is_node g k → is_node g' k.
Proof. intros (_ & _ & Hn & _) (s & -> & Hs). exists s. split; [done|]. by apply Hn. Qed.

Lemma task_ok_extends d g g' t : extends g g' → task_ok d g t → task_ok d g' t.
Proof.
  intros Hext (H1 & H2 & H3 & H4 & H5). split_and!.
  - by eapply dependencies_present_extends.
  - intros Hp. eapply is_node_extends; eauto.
  - done.
  - intros Hp. destruct Hext as (Hx & _). by apply elem_of_dom, Hx, elem_of_dom, H4.
  - intros Hp. destruct Hext as (_ & _ & _ & Hf). auto.
Qed.

(** The program point at which a resumed task stops, [n] tasks existing. *)
Definition pc_after (n : nat) (s : suspend) : pc :=
  match s with
  | Awaiting _ p => p
  | Gathering ((_ :: _) as keys) => AwaitChildren (seq n (length keys))
  | _ => Done
  end.

Definition raises (s : suspend) : bool :=
  match s with Failing _ => true | _ => false end.

Lemma resume_task_ok d k p o g g' s n :
  graph_loaded d g → task_ok d g (mk_task k p) →
  resume k p o g = Some (g', s) → raises s = false →
  task_ok d g' (mk_task k (pc_after n s)).
Proof.
  intros Hg Hok Hres Hs.
  pose proof (resume_extends _ _ _ _ _ _ Hres) as Hext.
  pose proof (task_ok_extends _ _ _ _ Hext Hok) as (H1 & H2 & H3 & H4 & H5).
  destruct Hg as (_ & _ & _ & _ & _ & Hv).
  simpl in *. split_and!; simpl.
  - done.
  - destruct s as [call p'|keys| |e]; simpl in *; try done.
    + intros Hp'. destruct (resume_needs_node _ _ _ _ _ _ _ Hres Hp') as [Hp|Hk];
        [by apply H2|by eapply is_node_extends].
    + intros _. apply H2. by eapply resume_gathers.
  - intros nd Hnd. destruct s as [call p'|[|??]| |e]; simpl in *; simplify_eq.
    clear H1 H2 H4 H5 Hext Hok.
    resume_cases Hres.
    all: match goal with
         | H : _ ≫= _ = Some _ |- _ =>
             destruct (bind_lookup_node _ _ _ _ H) as [-> Hn]
         end.
    all: destruct (Hv _ _ Hn) as (nd0 & Hn0 & [->| ->]); eexists _, nd0;
      split_and!; try done; by rewrite set_node_name_idemp.
  - intros Hp. clear H1 H2 H3 H5 Hext Hok Hv.
    resume_cases Hres; simpl in *; try done;
      try (by rewrite lookup_insert_eq); by apply H4.
  - intros Hp. clear H1 H2 H3 H4 Hext Hok Hv.
    destruct s as [call p'|[|??]| |e]; simpl in *; simplify_eq.
    resume_cases Hres; done.
Qed.

Lemma resume_child_ok d k p o g g' s child :
  resume k p o g = Some (g', s) → child ∈ launched s →
  task_ok d g' (mk_task child Start).
Proof.
  intros Hres Hc. destruct (resume_ready _ _ _ _ _ _ _ Hres Hc) as [_ Hdep].
  by split_and!.
Qed.

Lemma root_task_ok d g k :
  graph_loaded d g → k ∈ find_root_keys g → task_ok d g (mk_task k Start).
Proof.
  intros Hg Hk. split_and!; try done.
  intros dep. simpl. rewrite (dependencies_get_root d g k) by done. set_solver.
Qed.

(** ** The steps of a run, by their effect *)

Lemma alter_set_pc (ts : list task) (tid : nat) (t : task) (p : pc) :
  ts !! tid = Some t →
  alter (λ t, {| node_key := node_key t; at_pc := p |}) tid ts
    = <[tid := mk_task (node_key t) p]> ts.
Proof.
  intros Ht. apply list_eq. intros j. destruct (decide (tid = j)) as [<-|Hne].
  - rewrite list_lookup_alter_eq, Ht, list_lookup_insert_eq; [done|].
    by eapply lookup_lt_Some.
  - by rewrite list_lookup_alter_ne, list_lookup_insert_ne.
Qed.

(** The calls a suspension makes. *)
Definition new_calls (s : suspend) : list Call :=
  match s with
  | Awaiting k _ => [k]
  | _ => []
  end.

Lemma suspend_task_raises (tid : nat) (s : suspend) (c : config) :
  raises s = true →
  ∃ e, s = Failing e ∧ suspend_task tid s c = with_main (MRaised e) c.
Proof. destruct s; try done. eauto. Qed.

Lemma suspend_task_effect (tid : nat) (s : suspend) (c : config) (t : task) :
  tasks c !! tid = Some t → raises s = false →
  let c' := suspend_task tid s c in
  data c' = data c ∧ self c' = self c ∧ main c' = main c ∧
  calls c' = (calls c ++ new_calls s)%list ∧
  tasks c' = (<[tid := mk_task (node_key t) (pc_after (length (tasks c)) s)]>
                (tasks c) ++ new_tasks (launched s))%list.
Proof.
  intros Ht Hs. pose proof (lookup_lt_Some _ _ _ Ht) as Hlt.
  destruct s as [k p|[|key keys]| |e]; try done; simpl;
    rewrite ?app_nil_r; split_and!; try done.
  all: try (by erewrite alter_set_pc).
  rewrite alter_app_l by done. by erewrite alter_set_pc.
Qed.

(** A step of a task: it joins its finished children; or it is resumed and
    raises, which ends [run]; or it is resumed and stops at its next program
    point, having made at most one call and created its child tasks. *)
Lemma step_task_effect (tid : nat) (o : outcome) (c c' : config) :
  step_task tid o c = Some c' →
  ∃ t, tasks c !! tid = Some t ∧
    ((∃ ids, at_pc t = AwaitChildren ids ∧ all_done (tasks c) ids = true ∧
        c' = with_tasks (<[tid := mk_task (node_key t) Done]> (tasks c)) c) ∨
     (∃ g s, resume (node_key t) (at_pc t) o (self c) = Some (g, s) ∧
        ((∃ e, s = Failing e ∧ data c' = data c ∧ self c' = g ∧
            main c' = MRaised e ∧ calls c' = calls c ∧ tasks c' = tasks c) ∨
         (raises s = false ∧ data c' = data c ∧ self c' = g ∧
            main c' = main c ∧ calls c' = (calls c ++ new_calls s)%list ∧
            tasks c' =
              (<[tid := mk_task (node_key t) (pc_after (length (tasks c)) s)]>
                 (tasks c) ++ new_tasks (launched s))%list)))).
Proof.
  intros Hstep.
  apply step_task_inv in Hstep as (t & Ht & [(ids & Hpc & Hd & ->)|(g & s & Hr & ->)]);
    exists t; (split; [done|]).
  - left. exists ids. split_and!; try done. unfold set_pc.
    by erewrite alter_set_pc.
  - right. exists g, s. split; [done|].
    destruct (raises s) eqn:Hs.
    + left. destruct (suspend_task_raises tid s (observe t o (with_self g c)) Hs)
        as (e & -> & ->).
      exists e. unfold observe. by destruct (at_pc t).
    + right.
      assert (tasks (observe t o (with_self g c)) !! tid = Some t) as Ht'.
      { unfold observe. by destruct (at_pc t). }
      destruct (suspend_task_effect tid s _ t Ht' Hs) as (H1 & H2 & H3 & H4 & H5).
      unfold observe in *. by destruct (at_pc t).
Qed.

(** How [run] goes on after the graph is loaded: it awaits the PENDING patch
    of a root, or the EXECUTING patch of the execution, or it gathers the
    tasks of the roots, or, without roots, it finalizes. *)
Inductive after_load (r : gset Key) (c : config) : config → Prop :=
  | al_init k rest call :
      update_node_output (self c) k (Some (JObj [])) (Some PENDING) = Some call →
      after_load r c (with_main (MAwaitRootInit r rest) (with_call call c))
  | al_executing call :
      update_execution_status (self c) EXECUTING = Some call →
      after_load r c (with_main (MAwaitStatusExecuting r) (with_call call c))
  | al_gather :
      elements r ≠ [] →
      after_load r c
        (with_main (MAwaitRoots (seq (length (tasks c)) (length (elements r))))
           (with_tasks (tasks c ++ new_tasks (elements r)) c))
  | al_final :
      elements r = [] → after_load r c (finalize_execution c).

Lemma gather_roots_after_load r c : after_load r c (gather_roots r c).
Proof.
  unfold gather_roots. destruct (elements r) as [|k ks] eqn:Hr.
  - by apply al_final.
  - pose proof (al_gather r c) as H. rewrite Hr in H. by apply H.
Qed.

Lemma set_executing_after_load r c : after_load r c (set_executing r c).
Proof.
  unfold set_executing.
  destruct (update_execution_status _ _) eqn:Hu.
  - by apply al_executing.
  - apply gather_roots_after_load.
Qed.

Lemma initialize_root_nodes_after_load r rest c :
  after_load r c (initialize_root_nodes r rest c).
Proof.
  induction rest as [|k rest IH]; simpl.
  - apply set_executing_after_load.
  - destruct (update_node_output _ _ _ _) eqn:Hu; [|done].
    by eapply al_init.
Qed.

(** A step of [run]. *)
Inductive main_effect (c : config) : config → Prop :=
  | me_create :
      main c = MStart →
      main_effect c
        (with_main MAwaitCreate
           (with_call (CreateExecution (workflow_id (data c)) (dataset_id (data c))
                         "PENDING" (data_user_id (data c))) c))
  | me_raised e :
      main c ≠ MStart → (∀ ids, main c ≠ MAwaitRoots ids) →
      main_effect c (with_main (MRaised e) c)
  | me_loaded eid c' :
      main c = MAwaitCreate →
      after_load (find_root_keys (loaded (data c) eid (self c)))
        (with_self (loaded (data c) eid (self c)) c) c' →
      main_effect c c'
  | me_after_load r c' :
      (∃ rest, main c = MAwaitRootInit r rest) ∨ main c = MAwaitStatusExecuting r →
      after_load r c c' → main_effect c c'
  | me_finalize ids :
      main c = MAwaitRoots ids → all_done (tasks c) ids = true →
      main_effect c (finalize_execution c)
  | me_return :
      main c = MAwaitFinal →
      main_effect c (with_main (MReturned (executed_nodes (self c))) c).

Lemma step_main_effect (o : outcome) (c c' : config) :
  step_main o c = Some c' → main_effect c c'.
Proof.
  unfold step_main. intros Hstep.
  destruct (main c) eqn:Hm; destruct o as [v|e]; simplify_eq.
  - by apply me_create.
  - by apply me_create.
  - unfold initialize_execution in Hstep.
    destruct (executionId v) as [eid|]; simplify_eq/=.
    + eapply me_loaded; [done|]. apply initialize_root_nodes_after_load.
    + apply me_raised; by rewrite Hm.
  - apply me_raised; by rewrite Hm.
  - eapply me_after_load; [left; eauto|]. apply initialize_root_nodes_after_load.
  - apply me_raised; by rewrite Hm.
  - eapply me_after_load; [by right|]. apply gather_roots_after_load.
  - apply me_raised; by rewrite Hm.
  - destruct (all_done _ _) eqn:Hd; simplify_eq. by eapply me_finalize.
  - destruct (all_done _ _) eqn:Hd; simplify_eq. by eapply me_finalize.
  - by apply me_return.
  - apply me_raised; by rewrite Hm.
Qed.

(** ** The invariant of a run *)

(** The first call of [run]. *)
Definition create_call (d : GeneratorParams) : Call :=
  CreateExecution (workflow_id d) (dataset_id d) "PENDING" (data_user_id d).

(** What holds of every later call: a patch is addressed to the execution
    id of the instance, which is not empty, on behalf of the user of the
    request; a node operation is the activity of a node of the request,
    called with the parameters of that node and its key as [node_name]. *)
Definition later_call (d : GeneratorParams) (g : Generator) (k : Call) : Prop :=
  match k with
  | CreateExecution _ _ _ _ => False
  | PatchExecution e _ u =>
      execution_id g = Some e ∧ e ≠ "" ∧ u = Some (data_user_id d)
  | NodeActivity a args =>
      ∃ s n, dag_nodes (dag d) !! s = Some n ∧ a = activity_id n ∧
        args = JObj (params (set_node_name s n))
  end.

(** What holds of every entry of the executed-node map. *)
Definition entry_ok (g : Generator) (ts : list task) (k : Key) (n : NodeState)
    : Prop :=
  dependencies_present g k ∧
  (status n ≠ "SKIPPED" → is_node g k) ∧
  (status n = "FAILED" →
     _workflow_failed g = true ∨ ∃ t, t ∈ ts ∧ at_pc t = AwaitPatchFailed).

Definition all_finished (ts : list task) : Prop := Forall (λ t, at_pc t = Done) ts.

(** Every unfinished task is awaited: by [run], or by an older task. *)
Definition waited (ids : list nat) (ts : list task) : Prop :=
  ∀ i t, ts !! i = Some t → at_pc t ≠ Done →
    i ∈ ids ∨
    ∃ j tj ids', j < i ∧ ts !! j = Some tj ∧ at_pc tj = AwaitChildren ids' ∧
      i ∈ ids'.

Definition has_task (ts : list task) (k : Key) : Prop :=
  ∃ t, t ∈ ts ∧ node_key t = k.

Definition roots_started (g : Generator) (ts : list task) : Prop :=
  ∀ k, k ∈ find_root_keys g → has_task ts k.

Definition main_ok (d : GeneratorParams) (m : main_pc) (g : Generator)
    (ts : list task) (cs : list Call) : Prop :=
  match m with
  | MStart => g = __init__ ∧ ts = [] ∧ cs = []
  | MAwaitCreate => g = __init__ ∧ ts = [] ∧ cs = [create_call d]
  | MAwaitRootInit r _ | MAwaitStatusExecuting r =>
      ts = [] ∧ r = find_root_keys g ∧ graph_loaded d g
  | MAwaitRoots ids => graph_loaded d g ∧ waited ids ts ∧ roots_started g ts
  | MAwaitFinal => graph_loaded d g ∧ all_finished ts ∧ roots_started g ts
  | MReturned r =>
      graph_loaded d g ∧ all_finished ts ∧ roots_started g ts ∧
      r = executed_nodes g
  | MRaised _ => True
  end.

Record state_inv (d : GeneratorParams) (c : config) : Prop := {
  inv_data : data c = d;
  inv_graph : (self c = __init__ ∧ tasks c = []) ∨ graph_loaded d (self c);
  inv_tasks : Forall (task_ok d (self c)) (tasks c);
  inv_calls :
    (main c = MStart ∧ calls c = []) ∨
    ∃ rest, calls c = create_call d :: rest ∧ Forall (later_call d (self c)) rest;
  inv_entries :
    ∀ k n, executed_nodes (self c) !! k = Some n →
      entry_ok (self c) (tasks c) k n;
}.

Definition run_inv (d : GeneratorParams) (c : config) : Prop :=
  state_inv d c ∧ main_ok d (main c) (self c) (tasks c) (calls c).

Lemma run_inv_init (d : GeneratorParams) : run_inv d (init d).
Proof.
  split; [|done]. split; simpl; try done; auto.
Qed.

(** *** Calls *)

Lemma update_node_output_later d g k r st call :
  (g = __init__ ∨ graph_loaded d g) →
  update_node_output g k r st = Some call → later_call d g call.
Proof.
  intros [->|(_ & Hu & _)]; [done|].
  unfold update_node_output. destruct (execution_id g) as [eid|] eqn:He; [|done].
  destruct (String.eqb eid "") eqn:Heid; [done|]. intros [= <-]. simpl.
  split_and!; try done. by apply String.eqb_neq.
Qed.

Lemma update_execution_status_later d g st call :
  (g = __init__ ∨ graph_loaded d g) →
  update_execution_status g st = Some call → later_call d g call.
Proof.
  intros [->|(_ & Hu & _)]; [done|].
  unfold update_execution_status. destruct (execution_id g) as [eid|] eqn:He; [|done].
  destruct (String.eqb eid "") eqn:Heid; [done|]. intros [= <-]. simpl.
  split_and!; try done. by apply String.eqb_neq.
Qed.

Lemma set_graph_loaded d g k n :
  graph_loaded d g → nodes g !! k = Some n →
  graph_loaded d (set_nodes (<[k := set_node_name k n]> (nodes g)) g).
Proof.
  intros (Hid & Hu & He & Hd & Hn & Hv) Hk. split_and!; try done.
  - intros s. rewrite <-Hn. simpl. rewrite lookup_insert.
    case_decide; simplify_eq; [|done]. by rewrite Hk.
  - intros s n'. simpl. rewrite lookup_insert. case_decide; simplify_eq.
    + intros [= <-]. destruct (Hv _ _ Hk) as (n0 & Hn0 & [->| ->]);
        exists n0; (split; [done|]); right; [done|].
      apply set_node_name_idemp.
    + apply Hv.
Qed.

Lemma resume_later d k p o g g' call p' :
  graph_loaded d g → task_ok d g (mk_task k p) →
  resume k p o g = Some (g', Awaiting call p') → later_call d g' call.
Proof.
  intros Hg (_ & _ & Hnd & _) Hres. simpl in Hnd.
  assert (∀ s n, nodes g !! s = Some n →
            later_call d g' (NodeActivity (activity_id (set_node_name s n))
                               (JObj (params (set_node_name s n))))) as Hact.
  { intros s n Hs. destruct Hg as (_ & _ & _ & _ & _ & Hv).
    destruct (Hv _ _ Hs) as (n0 & Hn0 & [->| ->]); exists s, n0;
      rewrite ?set_node_name_idemp; by split_and!. }
  resume_cases Hres.
  all: try match goal with
       | H : _ ≫= _ = Some _ |- _ =>
           destruct (bind_lookup_node _ _ _ _ H) as [-> Hn]
       end.
  all: try (eapply update_node_output_later; [right|eassumption]; simpl).
  all: try (by apply Hact).
  all: try done.
  all: try (by apply set_graph_loaded).
  - destruct (Hnd _ eq_refl) as (s & n0 & _ & Hn0 & ->). exists s, n0.
    rewrite ?set_node_name_idemp; by split_and!.
Qed.

Lemma later_call_frame d g g' call :
  execution_id g' = execution_id g → later_call d g call → later_call d g' call.
Proof. intros Hid. destruct call; simpl; [done| |done]. by rewrite Hid. Qed.

Lemma resume_failing k p o g g' e :
  resume k p o g = Some (g', Failing e) → g' = g.
Proof. intros Hres. by resume_cases Hres. Qed.

Lemma resume_failed_next k p o g g' s n :
  resume k p o g = Some (g', s) → recorded g p o n → status n = "FAILED" →
  _workflow_failed g' = true ∨ ∃ call, s = Awaiting call AwaitPatchFailed.
Proof.
  intros Hres Hrec Hn. destruct Hrec as [? ?|v ? ?|e Hp ?]; simplify_eq/=.
  destruct Hp as [-> | ->]; resume_cases Hres; eauto.
Qed.

Lemma resume_patch_failed k o g g' s :
  resume k AwaitPatchFailed o g = Some (g', s) → raises s = false →
  _workflow_failed g' = true.
Proof. intros Hres Hs. by resume_cases Hres. Qed.

Lemma find_root_keys_resume k p o g g' s :
  resume k p o g = Some (g', s) → find_root_keys g' = find_root_keys g.
Proof.
  intros Hres.
  destruct (resume_frame _ _ _ _ _ _ Hres) as (He & _ & _ & _ & Hn).
  unfold find_root_keys. by rewrite He, Hn.
Qed.

(** *** The task list after a step of a task *)

Lemma lookup_stepped (ts extra : list task) (tid : nat) (x : task) (i : nat)
    (y : task) :
  (<[tid := x]> ts ++ extra)%list !! i = Some y →
  (i = tid ∧ y = x) ∨ (i ≠ tid ∧ ts !! i = Some y) ∨
  ((length ts ≤ i)%nat ∧ extra !! (i - length ts) = Some y).
Proof.
  intros Hi. apply lookup_app_Some in Hi as [Hi|[Hle Hi]].
  - apply list_lookup_insert_Some in Hi as [(-> & -> & _)|[? ?]]; auto.
  - rewrite length_insert in *. auto.
Qed.

Lemma lookup_stepped_old (ts extra : list task) (tid : nat) (x : task) (i : nat)
    (y : task) :
  i ≠ tid → ts !! i = Some y → (<[tid := x]> ts ++ extra)%list !! i = Some y.
Proof. intros Hne Hi. apply lookup_app_l_Some. by rewrite list_lookup_insert_ne. Qed.

Lemma lookup_stepped_eq (ts extra : list task) (tid : nat) (x : task) :
  tid < length ts → (<[tid := x]> ts ++ extra)%list !! tid = Some x.
Proof. intros Hlt. apply lookup_app_l_Some. by apply list_lookup_insert_eq. Qed.

Lemma has_task_stepped (ts extra : list task) (tid : nat) (t : task) (p : pc)
    (k : Key) :
  ts !! tid = Some t → has_task ts k →
  has_task (<[tid := mk_task (node_key t) p]> ts ++ extra)%list k.
Proof.
  intros Ht (t' & [i Hi]%list_elem_of_lookup & Hk).
  destruct (decide (i = tid)) as [->|Hne].
  - simplify_eq. exists (mk_task (node_key t) p). split; [|done].
    eapply list_elem_of_lookup_2, lookup_stepped_eq. by eapply lookup_lt_Some.
  - exists t'. split; [|done].
    eapply list_elem_of_lookup_2. by apply lookup_stepped_old.
Qed.

Lemma at_pc_stepped (ts extra : list task) (tid : nat) (t x : task) (q : pc) :
  ts !! tid = Some t → at_pc t ≠ q →
  (∃ t', t' ∈ ts ∧ at_pc t' = q) →
  ∃ t', t' ∈ (<[tid := x]> ts ++ extra)%list ∧ at_pc t' = q.
Proof.
  intros Ht Hq (t' & [i Hi]%list_elem_of_lookup & Hp).
  exists t'. split; [|done]. eapply list_elem_of_lookup_2.
  apply lookup_stepped_old; [|done]. intros ->. by simplify_eq.
Qed.

Lemma lookup_new_tasks (keys : list Key) (i : nat) (t : task) :
  new_tasks keys !! i = Some t →
  at_pc t = Start ∧ node_key t ∈ keys ∧ i < length keys.
Proof.
  unfold new_tasks. rewrite list_lookup_fmap. intros Hi.
  destruct (keys !! i) as [k|] eqn:Hk; simplify_eq/=.
  split_and!; [done|by eapply list_elem_of_lookup_2|by eapply lookup_lt_Some].
Qed.

Lemma all_done_spec (ts : list task) (ids : list nat) (i : nat) (t : task) :
  all_done ts ids = true → i ∈ ids → ts !! i = Some t → at_pc t = Done.
Proof.
  unfold all_done. rewrite forallb_forall. intros Hall Hi Ht.
  apply list_elem_of_In, Hall in Hi. unfold is_done in Hi. rewrite Ht in Hi.
  destruct t as [k []]; done.
Qed.

(** When [run] joins the tasks of the roots, every task has finished. *)
Lemma waited_all_done (ts : list task) (ids : list nat) :
  waited ids ts → all_done ts ids = true → all_finished ts.
Proof.
  intros Hw Hall. apply Forall_lookup. intros i.
  induction (lt_wf i) as [i _ IH]. intros t Ht.
  assert (at_pc t = Done ∨ at_pc t ≠ Done) as [|Hnd]
    by (destruct (at_pc t); auto); [done|].
  destruct (Hw i t Ht Hnd) as [Hi|(j & tj & ids' & Hlt & Hj & Hpc & _)].
  - by eapply all_done_spec.
  - specialize (IH j Hlt tj Hj). congruence.
Qed.

(** *** The steps of [run] keep the invariant *)

Lemma state_inv_graph d c :
  state_inv d c → self c = __init__ ∨ graph_loaded d (self c).
Proof. intros [_ [[? _]|?] _ _ _]; auto. Qed.

Lemma state_inv_calls d c : state_inv d c → main c ≠ MStart → calls c ≠ [].
Proof. intros [_ _ _ [[? _]|(rest & -> & _)] _] Hm; done. Qed.

Lemma state_inv_with_call d c call m :
  state_inv d c → calls c ≠ [] → later_call d (self c) call →
  state_inv d (with_main m (with_call call c)).
Proof.
  intros [H1 H2 H3 H4 H5] Hne Hcall. split; simpl; try done.
  destruct H4 as [[_ ?]|(rest & -> & Hrest)]; [done|]. right.
  exists (rest ++ [call])%list. split; [done|].
  apply Forall_app. split; [done|]. by apply Forall_singleton.
Qed.

Lemma state_inv_with_main d c m :
  state_inv d c → calls c ≠ [] → state_inv d (with_main m c).
Proof.
  intros [H1 H2 H3 H4 H5] Hne. split; simpl; try done.
  destruct H4 as [[_ ?]|?]; [done|by right].
Qed.

Lemma finalize_execution_inv d c :
  state_inv d c → calls c ≠ [] → graph_loaded d (self c) →
  all_finished (tasks c) → roots_started (self c) (tasks c) →
  run_inv d (finalize_execution c).
Proof.
  intros Hc Hne Hg Hfin Hroots. unfold finalize_execution.
  destruct (update_execution_status _ _) as [call|] eqn:Hu.
  - split; [|by split_and!]. apply state_inv_with_call; try done.
    eapply update_execution_status_later; [|done]. by apply state_inv_graph.
  - split; [|by split_and!]. by apply state_inv_with_main.
Qed.

Lemma after_load_inv d r c c' :
  state_inv d c → calls c ≠ [] → graph_loaded d (self c) → tasks c = [] →
  r = find_root_keys (self c) → after_load r c c' → run_inv d c'.
Proof.
  intros Hc Hne Hg Hts -> Hal. destruct Hal as [k rest call Hu|call Hu|Hr|Hr].
  - split; [|by split_and!]. apply state_inv_with_call; try done.
    eapply update_node_output_later; [by right|done].
  - split; [|by split_and!]. apply state_inv_with_call; try done.
    eapply update_execution_status_later; [by right|done].
  - destruct Hc as [H1 H2 H3 H4 H5]. split; [split|]; simpl; try done.
    + by right.
    + rewrite Hts. simpl. unfold new_tasks. apply Forall_fmap, Forall_forall.
      intros k Hk. apply root_task_ok; [done|]. by apply elem_of_elements.
    + destruct H4 as [[_ ?]|?]; [done|by right].
    + intros k n Hk. destruct (H5 k n Hk) as (? & ? & Hf). split_and!; try done.
      intros Hs. destruct (Hf Hs) as [|(t & Ht & _)]; [by left|].
      rewrite Hts in Ht. by apply elem_of_nil in Ht.
    + rewrite Hts. simpl. split_and!; [done| |].
      * intros i t Hi _. left. apply lookup_new_tasks in Hi as (_ & _ & Hlt).
        apply elem_of_seq. lia.
      * intros k Hk. exists (mk_task k Start). split; [|done].
        unfold new_tasks. apply list_elem_of_fmap. exists k. split; [done|].
        by apply elem_of_elements.
  - apply finalize_execution_inv; try done.
    + rewrite Hts. constructor.
    + intros k Hk. apply elem_of_elements in Hk. rewrite Hr in Hk.
      by apply elem_of_nil in Hk.
Qed.

Lemma step_main_run_inv d o c c' :
  run_inv d c → step_main o c = Some c' → run_inv d c'.
Proof.
  intros [Hc Hm] Hstep. apply step_main_effect in Hstep.
  destruct Hstep as [Hs|e Hs Hr|eid c' Hs Hal|r c' Hs Hal|ids Hs Hd|Hs].
  - rewrite Hs in Hm. destruct Hm as (Hg & Hts & Hcs).
    destruct Hc as [H1 H2 H3 H4 H5]. split.
    + split; simpl; try done. right. exists []. by rewrite Hcs, H1.
    + simpl. by rewrite Hcs, H1.
  - split; [|done]. apply state_inv_with_main; [done|].
    by apply (state_inv_calls d).
  - rewrite Hs in Hm. destruct Hm as (Hg & Hts & Hcs).
    destruct Hc as [H1 H2 H3 H4 H5].
    eapply after_load_inv; [| | | | |exact Hal]; simpl.
    + split; simpl; try done.
      * right. rewrite H1. apply graph_loaded_loaded.
      * by rewrite Hts.
      * right. exists []. by rewrite Hcs.
      * rewrite Hg. intros k n Hk. simpl in Hk. by rewrite lookup_empty in Hk.
    + by rewrite Hcs.
    + rewrite H1. apply graph_loaded_loaded.
    + done.
    + done.
  - assert (tasks c = [] ∧ r = find_root_keys (self c) ∧ graph_loaded d (self c))
      as (Hts & -> & Hg).
    { destruct Hs as [[rest Hs]|Hs]; by rewrite Hs in Hm. }
    eapply after_load_inv; [done| |done|done|done|exact Hal].
    apply (state_inv_calls d); [done|]. destruct Hs as [[rest Hs]|Hs]; by rewrite Hs.
  - rewrite Hs in Hm. destruct Hm as (Hg & Hw & Hr).
    apply finalize_execution_inv; try done.
    + apply (state_inv_calls d); [done|]. by rewrite Hs.
    + by eapply waited_all_done.
  - rewrite Hs in Hm. destruct Hm as (Hg & Hf & Hr). split; [|by split_and!].
    apply state_inv_with_main; [done|].
    apply (state_inv_calls d); [done|]. by rewrite Hs.
Qed.

(** *** The steps of a task keep the invariant *)

Lemma resume_not_joined k p o g r :
  resume k p o g = Some r → p ≠ Done ∧ ∀ ids, p ≠ AwaitChildren ids.
Proof. destruct p; simpl; try done. Qed.

Lemma pc_after_launched (n : nat) (s : suspend) :
  launched s ≠ [] → pc_after n s = AwaitChildren (seq n (length (launched s))).
Proof. by destruct s as [| [|??] | |]. Qed.

Lemma entry_ok_stepped g g' ts tid t o s extra x k n :
  ts !! tid = Some t →
  resume (node_key t) (at_pc t) o g = Some (g', s) → raises s = false →
  entry_ok g ts k n → entry_ok g' (<[tid := x]> ts ++ extra)%list k n.
Proof.
  intros Ht Hres Hs (E1 & E2 & E3).
  pose proof (resume_extends _ _ _ _ _ _ Hres) as Hext. split_and!.
  - by eapply dependencies_present_extends.
  - intros Hn. eapply is_node_extends; eauto.
  - intros Hn. destruct (E3 Hn) as [Hf|Hw].
    { left. by apply Hext. }
    assert (at_pc t = AwaitPatchFailed ∨ at_pc t ≠ AwaitPatchFailed) as [Hp|Hp]
      by (destruct (at_pc t); auto).
    + left. rewrite Hp in Hres. by eapply resume_patch_failed.
    + right. by eapply at_pc_stepped.
Qed.

Lemma entry_ok_recorded d g g' ts tid t o s extra n :
  ts !! tid = Some t → task_ok d g t →
  resume (node_key t) (at_pc t) o g = Some (g', s) → raises s = false →
  recorded g (at_pc t) o n →
  entry_ok g'
    (<[tid := mk_task (node_key t) (pc_after (length ts) s)]> ts ++ extra)%list
    (node_key t) n.
Proof.
  intros Ht (H1 & H2 & _) Hres Hs Hrec.
  pose proof (resume_extends _ _ _ _ _ _ Hres) as Hext. split_and!.
  - by eapply dependencies_present_extends.
  - intros Hn. eapply is_node_extends; [done|]. apply H2.
    destruct Hrec as [? ?|v Hp ?|e [Hp|Hp] ?]; simplify_eq/=; by rewrite Hp.
  - intros Hn.
    destruct (resume_failed_next _ _ _ _ _ _ _ Hres Hrec Hn) as [?|[call ->]];
      [by left|right].
    eexists. split; [eapply list_elem_of_lookup_2, lookup_stepped_eq|done].
    by eapply lookup_lt_Some.
Qed.

Lemma step_task_run_inv d tid o c c' :
  run_inv d c → step_task tid o c = Some c' → run_inv d c'.
Proof.
  intros [Hc Hm] Hstep.
  apply step_task_effect in Hstep as (t & Ht & Hcases).
  pose proof (lookup_lt_Some _ _ _ Ht) as Hlt.
  assert (graph_loaded d (self c)) as Hg.
  { destruct (inv_graph _ _ Hc) as [[_ Hts]|?]; [|done]. by rewrite Hts in Ht. }
  assert (calls c ≠ []) as Hne.
  { apply (state_inv_calls d); [done|]. intros Hs. rewrite Hs in Hm.
    destruct Hm as (_ & Hts & _). by rewrite Hts in Ht. }
  assert (task_ok d (self c) t) as Hok.
  { eapply Forall_lookup_1; [apply Hc|done]. }
  destruct Hcases as [(ids & Hpc & Hd & ->)|(g' & s & Hres &
    [(e & -> & Hdata & Hself & Hmain & Hcalls & Htasks)|
     (Hs & Hdata & Hself & Hmain & Hcalls & Htasks)])].
  - (* the task joins its children *)
    destruct Hc as [H1 H2 H3 H4 H5]. split; [split|]; simpl; try done.
    + by right.
    + apply Forall_insert; [done|].
      destruct Hok as (O1 & O2 & O3 & O4 & O5). split_and!; simpl; try done.
      intros _. apply O4. by rewrite Hpc.
    + intros k n Hk. destruct (H5 k n Hk) as (E1 & E2 & E3).
      split_and!; try done. intros Hf. destruct (E3 Hf) as [|Hw]; [by left|right].
      rewrite <-(app_nil_r (<[tid:=_]> (tasks c))).
      eapply at_pc_stepped; [done| |done]. by rewrite Hpc.
    + rewrite <-(app_nil_r (<[tid:=_]> (tasks c))).
      destruct (main c) eqn:Hmc; simpl in *;
        try (destruct Hm as (? & Hts & ?); by rewrite Hts in Ht);
        try (destruct Hm as (Hts & ?); by rewrite Hts in Ht); try done.
      * destruct Hm as (_ & Hw & Hr). split_and!; [done| |].
        -- intros i ti Hi Hnd.
           apply lookup_stepped in Hi as [[-> ->]|[[Hne' Hi]|[Hle Hi]]];
             [done| |done].
           destruct (Hw i ti Hi Hnd) as [|(j & tj & ids' & Hj1 & Hj2 & Hj3 & Hj4)];
             [by left|].
           destruct (decide (j = tid)) as [->|Hjne].
           ++ simplify_eq. rewrite Hpc in Hj3. simplify_eq.
              exfalso. apply Hnd. by eapply all_done_spec.
           ++ right. exists j, tj, ids'. split_and!; try done.
              by apply lookup_stepped_old.
        -- intros k Hk. by apply has_task_stepped, Hr.
      * destruct Hm as (_ & Hf & Hr). split_and!; [done| |].
        -- apply Forall_app. split; [|constructor]. by apply Forall_insert.
        -- intros k Hk. by apply has_task_stepped, Hr.
      * destruct Hm as (_ & Hf & Hr & ->). split_and!; [done| | |done].
        -- apply Forall_app. split; [|constructor]. by apply Forall_insert.
        -- intros k Hk. by apply has_task_stepped, Hr.
  - (* the task raises *)
    apply resume_failing in Hres as ->.
    destruct Hc as [H1 H2 H3 H4 H5]. split; [split|].
    + by rewrite Hdata.
    + rewrite Hself, Htasks. by right.
    + by rewrite Hself, Htasks.
    + right. rewrite Hcalls, Hself. destruct H4 as [[_ ?]|?]; done.
    + by rewrite Hself, Htasks.
    + by rewrite Hmain.
  - (* the task stops at its next program point *)
    pose proof (resume_extends _ _ _ _ _ _ Hres) as Hext.
    destruct (resume_frame _ _ _ _ _ _ Hres) as (_ & _ & Hid & _ & _).
    destruct (resume_not_joined _ _ _ _ _ Hres) as [Hnd Hnj].
    destruct Hc as [H1 H2 H3 H4 H5]. split; [split|].
    + by rewrite Hdata.
    + right. rewrite Hself. by eapply graph_loaded_resume.
    + rewrite Hself, Htasks. apply Forall_app. split.
      * apply Forall_insert.
        -- eapply Forall_impl; [done|]. intros t'. by apply task_ok_extends.
        -- destruct t as [k p]. by eapply resume_task_ok.
      * unfold new_tasks. apply Forall_fmap, Forall_forall. intros k Hk.
        by eapply resume_child_ok.
    + right. destruct H4 as [[_ ?]|(rest & Hc4 & Hrest)]; [done|].
      exists (rest ++ new_calls s)%list. rewrite Hcalls, Hc4, Hself.
      split; [done|]. apply Forall_app. split.
      * eapply Forall_impl; [done|]. intros call. by apply later_call_frame.
      * destruct s as [call p'| | |]; simpl; try constructor; [|constructor].
        destruct t as [k p]. by eapply resume_later.
    + rewrite Hself, Htasks. intros k n Hk.
      destruct (resume_executed _ _ _ _ _ _ Hres) as [Hx|(n1 & Hx & Hrec)];
        rewrite Hx in Hk.
      * eapply entry_ok_stepped; eauto.
      * rewrite lookup_insert in Hk. case_decide; simplify_eq.
        -- by eapply entry_ok_recorded.
        -- eapply entry_ok_stepped; eauto.
    + rewrite Hmain, Hself, Htasks.
      destruct (main c) eqn:Hmc; simpl in *;
        try (destruct Hm as (? & Hts & ?); by rewrite Hts in Ht);
        try (destruct Hm as (Hts & ?); by rewrite Hts in Ht); try done.
      * destruct Hm as (_ & Hw & Hr). split_and!;
          [by eapply graph_loaded_resume| |].
        -- intros i ti Hi Hdone.
           apply lookup_stepped in Hi as [[-> ->]|[[Hne' Hi]|[Hle Hi]]].
           ++ destruct (Hw tid t Ht Hnd)
                as [|(j & tj & ids' & Hj1 & Hj2 & Hj3 & Hj4)]; [by left|].
              right. exists j, tj, ids'. split_and!; try done.
              apply lookup_stepped_old; [lia|done].
           ++ destruct (Hw i ti Hi Hdone)
                as [|(j & tj & ids' & Hj1 & Hj2 & Hj3 & Hj4)]; [by left|].
              right. exists j, tj, ids'. split_and!; try done.
              apply lookup_stepped_old; [|done]. intros ->. simplify_eq.
              by eapply Hnj.
           ++ right. apply lookup_new_tasks in Hi as (_ & Hin & Hi).
              eexists tid, _, _. split_and!.
              ** lia.
              ** by apply lookup_stepped_eq.
              ** apply pc_after_launched. intros Hl. rewrite Hl in Hin.
                 by apply elem_of_nil in Hin.
              ** apply elem_of_seq. lia.
        -- intros k Hk. apply has_task_stepped; [done|]. apply Hr.
           by erewrite <-find_root_keys_resume.
      * destruct Hm as (_ & Hf & Hr). exfalso. apply Hnd.
        by eapply (Forall_lookup_1 _ _ _ _ Hf).
      * destruct Hm as (_ & Hf & Hr & ->). exfalso. apply Hnd.
        by eapply (Forall_lookup_1 _ _ _ _ Hf).
Qed.

Lemma reachable_run_inv (d : GeneratorParams) (c : config) :
  reachable d c → run_inv d c.
Proof.
  apply reachable_invariant; [apply run_inv_init|].
  intros ch c0 c' Hc. unfold step. destruct (running c0); [|done].
  destruct ch as [o|tid o].
  - by apply step_main_run_inv.
  - by apply step_task_run_inv.
Qed.

(** ** What holds throughout every run *)

Lemma reachable_graph_loaded (d : GeneratorParams) (c : config) (k : Key) :
  reachable d c →
  has_task (tasks c) k ∨ is_Some (executed_nodes (self c) !! k) →
  graph_loaded d (self c).
Proof.
  intros [Hc _]%reachable_run_inv Hk.
  destruct (inv_graph _ _ Hc) as [[Hs Hts]|?]; [exfalso|done].
  destruct Hk as [(t & Ht & _)|[n Hn]].
  - rewrite Hts in Ht. by apply elem_of_nil in Ht.
  - rewrite Hs in Hn. simpl in Hn. by rewrite lookup_empty in Hn.
Qed.

(** X8. A result other than SKIPPED is only ever recorded for a key of the node
    map of the request: an edge target that is no node, or a missing
    endpoint, never gets a SUCCESS or a FAILED entry. *)
Theorem result_keys_are_nodes (d : GeneratorParams) (c : config) (k : Key)
    (n : NodeState) :
  reachable d c →
  executed_nodes (self c) !! k = Some n → status n ≠ "SKIPPED" →
  ∃ s, k = Some s ∧ is_Some (dag_nodes (dag d) !! s).
Proof.
  intros Hr Hk Hn.
  assert (graph_loaded d (self c)) as (_ & _ & _ & _ & Hnodes & _).
  { eapply reachable_graph_loaded; [done|]. right. by rewrite Hk. }
  destruct (reachable_run_inv d c Hr) as [Hc _].
  destruct (inv_entries _ _ Hc k n Hk) as (_ & Hnode & _).
  destruct (Hnode Hn) as (s & -> & Hs). exists s. split; [done|]. by apply Hnodes.
Qed.

(** X9. Dependency order.  A task is created for a node, and a result is
    recorded for it, only when every edge into the node comes from a key
    that already has a recorded result. *)
Theorem predecessors_recorded_first (d : GeneratorParams) (c : config)
    (e : Edge) (s : string) :
  reachable d c →
  e ∈ dag_edges (dag d) → to_node e = Some s →
  is_Some (dag_nodes (dag d) !! s) →
  has_task (tasks c) (Some s) ∨ is_Some (executed_nodes (self c) !! Some s) →
  is_Some (executed_nodes (self c) !! from_node e).
Proof.
  intros Hr He Hto Hs Hk.
  pose proof (reachable_graph_loaded d c (Some s) Hr Hk) as Hg.
  destruct (reachable_run_inv d c Hr) as [Hc _].
  assert (dependencies_present (self c) (Some s)) as Hdeps.
  { destruct Hk as [(t & Ht & Hkey)|[n Hn]].
    - rewrite <-Hkey. eapply Forall_forall in Ht; [|apply Hc]. apply Ht.
    - by destruct (inv_entries _ _ Hc _ n Hn) as (? & _). }
  apply Hdeps. rewrite (dependencies_get_node d) by (done || by apply Hg).
  apply elem_of_dependencies_of. exists e.
  destruct Hg as (_ & _ & -> & _). done.
Qed.

(** X10. The calls of a run.  The first call creates the execution record, with
    the workflow id, the dataset id, the status PENDING and the user id of
    the request, and no later call creates a record.  Every patch is
    addressed to the execution id of the instance, which is then not empty,
    on behalf of the user of the request.  Every node operation is the
    activity of a node of the request, called with the parameters of that
    node and with its key as [node_name]. *)
Theorem calls_of_a_run (d : GeneratorParams) (c : config) :
  reachable d c →
  calls c = [] ∨
  ∃ rest, calls c = create_call d :: rest ∧
    Forall (later_call d (self c)) rest.
Proof.
  intros [Hc _]%reachable_run_inv.
  destruct (inv_calls _ _ Hc) as [[_ ?]|?]; auto.
Qed.

(** X11. When [run] returns, every task it created, directly or through the
    children of a node, has finished; what it returns is the executed-node
    map; that map has an entry for the node of every task, and a task was
    created for every root. *)
Theorem run_returns_after_all_tasks (d : GeneratorParams) (c : config)
    (r : gmap Key NodeState) :
  reachable d c → main c = MReturned r →
  r = executed_nodes (self c) ∧
  Forall (λ t, at_pc t = Done ∧ is_Some (r !! node_key t)) (tasks c) ∧
  (∀ k, k ∈ find_root_keys (self c) → is_Some (r !! k)).
Proof.
  intros [Hc Hm]%reachable_run_inv Hmain. rewrite Hmain in Hm.
  destruct Hm as (_ & Hfin & Hroots & ->). split; [done|].
  assert (Forall (λ t, at_pc t = Done ∧
            is_Some (executed_nodes (self c) !! node_key t)) (tasks c)) as Hall.
  { apply Forall_forall. intros t Ht.
    pose proof (proj1 (Forall_forall _ _) Hfin t Ht) as Hd. split; [done|].
    pose proof (proj1 (Forall_forall _ _) (inv_tasks _ _ Hc) t Ht)
      as (_ & _ & _ & Hrec & _).
    apply Hrec. by rewrite Hd. }
  split; [done|]. intros k Hk. destruct (Hroots k Hk) as (t & Ht & <-).
  by apply (proj1 (Forall_forall _ _) Hall t Ht).
Qed.

(** ** Runs without failure *)

(** Program points after the children of the node have been looked at. *)
Definition past_children (p : pc) : bool :=
  match p with
  | AwaitChildren _ | Done => true
  | _ => false
  end.

(** Some task of [k] is past its children. *)
Definition processed (ts : list task) (k : Key) : Prop :=
  ∃ t, t ∈ ts ∧ node_key t = k ∧ past_children (at_pc t) = true.

(** As long as the failure flag is not set: a node with an edge into it has
    a task as soon as a task of each of its dependencies is past its
    children. *)
Definition children_started (g : Generator) (ts : list task) : Prop :=
  _workflow_failed g = false →
  ∀ s e, is_Some (nodes g !! s) → e ∈ edges g → to_node e = Some s →
    (∀ dep, dep ∈ dependencies_of (edges g) s → processed ts dep) →
    has_task ts (Some s).

Lemma children_started_fresh (g : Generator) (ts : list task) :
  Forall (λ t, at_pc t = Start) ts → children_started g ts.
Proof.
  intros Hts _ s e _ He Hto Hdeps. exfalso.
  destruct (Hdeps (from_node e)) as (t & Ht & _ & Hp).
  { apply elem_of_dependencies_of. eauto. }
  rewrite (proj1 (Forall_forall _ _) Hts t Ht) in Hp. done.
Qed.

Lemma after_load_tasks r c c' :
  after_load r c c' → tasks c = [] →
  self c' = self c ∧ Forall (λ t, at_pc t = Start) (tasks c').
Proof.
  intros Hal Hts. destruct Hal; simpl; rewrite ?Hts; try (split; [done|constructor]).
  - split; [done|]. simpl. unfold new_tasks. apply Forall_fmap, Forall_forall. done.
  - unfold finalize_execution. destruct (update_execution_status _ _); simpl;
      rewrite Hts; (split; [done|constructor]).
Qed.

Lemma step_main_children_started d o c c' :
  run_inv d c → children_started (self c) (tasks c) →
  step_main o c = Some c' → children_started (self c') (tasks c').
Proof.
  intros [Hc Hm] Hk Hstep. apply step_main_effect in Hstep.
  destruct Hstep as [Hs|e Hs Hr|eid c' Hs Hal|r c' Hs Hal|ids Hs Hd|Hs];
    try done.
  - rewrite Hs in Hm. destruct Hm as (_ & Hts & _).
    apply after_load_tasks in Hal as [_ Hal]; [|done].
    by apply children_started_fresh.
  - assert (tasks c = []) as Hts.
    { destruct Hs as [[rest Hs]|Hs]; rewrite Hs in Hm; by destruct Hm. }
    apply after_load_tasks in Hal as [_ Hal]; [|done].
    by apply children_started_fresh.
  - unfold finalize_execution. by destruct (update_execution_status _ _).
Qed.

Lemma resume_processes k p o g g' s n :
  resume k p o g = Some (g', s) → raises s = false →
  past_children (pc_after n s) = true → _workflow_failed g' = false →
  p = AwaitPatchSkipped ∨ launched s = ready_children g' k.
Proof.
  intros Hres Hs Hp Hf. resume_cases Hres; auto.
  all: destruct (ready_children _ _) eqn:Hrc; simplify_eq/=; auto; congruence.
Qed.

Lemma processed_stepped_old ts tid t x extra dep :
  ts !! tid = Some t →
  (past_children (at_pc x) = true →
     node_key x ≠ dep ∨ past_children (at_pc t) = true ∧ node_key x = node_key t) →
  Forall (λ t, at_pc t = Start) extra →
  processed (<[tid := x]> ts ++ extra)%list dep → processed ts dep.
Proof.
  intros Ht Hx Hextra (t' & [i Hi]%list_elem_of_lookup & Hkey & Hp).
  apply lookup_stepped in Hi as [[-> ->]|[[Hne Hi]|[Hle Hi]]].
  - destruct (Hx Hp) as [?|[Hpt Hkt]]; [done|].
    exists t. split_and!; [by eapply list_elem_of_lookup_2|congruence|done].
  - exists t'. split_and!; [by eapply list_elem_of_lookup_2|done..].
  - apply list_elem_of_lookup_2 in Hi.
    rewrite (proj1 (Forall_forall _ _) Hextra t' Hi) in Hp. done.
Qed.

Lemma new_tasks_start (keys : list Key) :
  Forall (λ t, at_pc t = Start) (new_tasks keys).
Proof. unfold new_tasks. by apply Forall_fmap, Forall_forall. Qed.

Lemma has_task_new (ts : list task) (keys : list Key) (k : Key) :
  k ∈ keys → has_task (ts ++ new_tasks keys)%list k.
Proof.
  intros Hk. exists (mk_task k Start). split; [|done].
  apply elem_of_app. right. unfold new_tasks. apply list_elem_of_fmap. eauto.
Qed.

Lemma step_task_children_started d tid o c c' :
  run_inv d c → run_inv d c' → children_started (self c) (tasks c) →
  step_task tid o c = Some c' → children_started (self c') (tasks c').
Proof.
  intros [Hc Hm] [Hc' _] Hk Hstep.
  apply step_task_effect in Hstep as (t & Ht & Hcases).
  destruct Hcases as [(ids & Hpc & Hd & ->)|(g' & s & Hres &
    [(e & -> & Hdata & Hself & Hmain & Hcalls & Htasks)|
     (Hs & Hdata & Hself & Hmain & Hcalls & Htasks)])].
  - (* the task joins its children *)
    simpl. intros Hf x e Hx He Hto Hdeps.
    rewrite <-(app_nil_r (<[tid:=_]> (tasks c))).
    apply has_task_stepped; [done|]. apply (Hk Hf x e Hx He Hto).
    intros dep Hdep. specialize (Hdeps dep Hdep).
    rewrite <-(app_nil_r (<[tid:=_]> (tasks c))) in Hdeps.
    eapply processed_stepped_old; [done| |constructor|done].
    simpl. intros _. right. by rewrite Hpc.
  - apply resume_failing in Hres as ->. by rewrite Hself, Htasks.
  - (* the task stops at its next program point *)
    rewrite Hself, Htasks. intros Hf x e Hx He Hto Hdeps.
    pose proof (resume_extends _ _ _ _ _ _ Hres) as (_ & _ & Hnodes & Hflag).
    destruct (resume_frame _ _ _ _ _ _ Hres) as (Hedges & _).
    assert (_workflow_failed (self c) = false) as Hf0.
    { destruct (_workflow_failed (self c)); [|done]. by rewrite Hflag in Hf. }
    assert (graph_loaded d g') as Hg'.
    { destruct (inv_graph _ _ Hc') as [[_ Hts]|Hg']; [|by rewrite <-Hself].
      rewrite Htasks in Hts. apply app_nil in Hts as [Hts _].
      apply (f_equal length) in Hts. rewrite length_insert in Hts.
      apply lookup_lt_Some in Ht. simpl in Hts. lia. }
    assert (past_children (pc_after (length (tasks c)) s) = true ∧
            node_key t ∈ dependencies_of (edges g') x ∧
            past_children (at_pc t) = false ∨
            ∀ dep, dep ∈ dependencies_of (edges g') x →
              past_children (pc_after (length (tasks c)) s) = true →
              node_key t ≠ dep ∨ past_children (at_pc t) = true) as [(Hp & Hin & Hpt)|Hold].
    { destruct (past_children (at_pc t)) eqn:Hpt; [right; auto|].
      destruct (past_children (pc_after (length (tasks c)) s)) eqn:Hp;
        [|right; by intros ?? [=]].
      destruct (decide (node_key t ∈ dependencies_of (edges g') x)) as [Hin|Hin];
        [by left|].
      right. intros dep Hdep _. left. intros Heq. apply Hin. by rewrite Heq. }
    + (* the task has looked at its children: [x] is among them *)
      destruct (resume_processes _ _ _ _ _ _ _ Hres Hs Hp Hf) as [Hsk|Hl].
      { exfalso.
        pose proof (proj1 (Forall_forall _ _) (inv_tasks _ _ Hc) t
                      (list_elem_of_lookup_2 _ _ _ Ht)) as (_ & _ & _ & _ & Hskip).
        rewrite (Hskip Hsk) in Hf0. done. }
      rewrite Hl. apply has_task_new, elem_of_ready_children. split.
      * apply elem_of_dependencies_of in Hin as (e' & He' & Hto' & Hfrom').
        by exists e'.
      * intros dep Hdep.
        rewrite (dependencies_get_node d) in Hdep by (done || by apply Hnodes).
        destruct (Hdeps dep Hdep) as (t' & Ht' & <- & Hp').
        rewrite <-Htasks in Ht'.
        pose proof (proj1 (Forall_forall _ _) (inv_tasks _ _ Hc') t' Ht')
          as (_ & _ & _ & Hrec & _).
        rewrite Hself in Hrec. apply Hrec.
        by destruct (at_pc t').
    + (* nothing new is past its children among the dependencies of [x] *)
      apply has_task_stepped; [done|].
      apply (Hk Hf0 x e); [by apply Hnodes|by rewrite <-Hedges|done|].
      rewrite <-Hedges. intros dep Hdep.
      eapply processed_stepped_old; [done| |apply new_tasks_start|by apply Hdeps].
      simpl. intros Hp. destruct (Hold dep Hdep Hp) as [?|?]; [by left|by right].
Qed.

Definition success_inv (d : GeneratorParams) (c : config) : Prop :=
  run_inv d c ∧ children_started (self c) (tasks c).

Lemma reachable_success_inv (d : GeneratorParams) (c : config) :
  reachable d c → success_inv d c.
Proof.
  apply reachable_invariant.
  - split; [apply run_inv_init|]. by apply children_started_fresh.
  - intros ch c0 c' [Hc Hk]. unfold step. destruct (running c0); [|done].
    destruct ch as [o|tid o]; intros Hstep.
    + split; [by eapply step_main_run_inv|].
      exact (step_main_children_started d o c0 c' Hc Hk Hstep).
    + assert (run_inv d c') as Hc' by (by eapply step_task_run_inv).
      split; [done|]. exact (step_task_children_started d tid o c0 c' Hc Hc' Hk Hstep).
Qed.

(** The graph of a request is well formed under a ranking of the node keys
    when every edge into a node comes from a node of lower rank: the edges
    between nodes form no cycle, and no edge into a node lacks its source
    or comes from a key that is no node. *)
Definition well_formed (g : DAG) (rank : string → nat) : Prop :=
  ∀ e b, e ∈ dag_edges g → to_node e = Some b → is_Some (dag_nodes g !! b) →
    ∃ a, from_node e = Some a ∧ is_Some (dag_nodes g !! a) ∧ rank a < rank b.

Lemma not_root_has_edge (g : Generator) (s : string) :
  is_Some (nodes g !! s) → Some s ∉ find_root_keys g →
  ∃ e, e ∈ edges g ∧ to_node e = Some s.
Proof.
  intros Hs Hroot. unfold find_root_keys in Hroot.
  apply not_elem_of_difference in Hroot as [Hroot|Hroot].
  - exfalso. apply Hroot, elem_of_map. exists s. split; [done|].
    by apply elem_of_dom.
  - apply elem_of_list_to_set, list_elem_of_fmap in Hroot as (e & ? & ?). eauto.
Qed.

(** X12. A run that returns without the failure flag has executed the whole
    graph.  If the graph of the request is well formed, the run returns and
    the failure flag is not set, then the returned map has an entry with
    status SUCCESS for every node of the request, it has no other entry,
    and the final status is COMPLETED. *)
Theorem successful_run_executes_every_node (d : GeneratorParams) (c : config)
    (r : gmap Key NodeState) (rank : string → nat) :
  reachable d c → main c = MReturned r →
  _workflow_failed (self c) = false →
  well_formed (dag d) rank →
  (∀ s, is_Some (dag_nodes (dag d) !! s) →
     ∃ v, r !! Some s = Some {| status := "SUCCESS"; output := v |}) ∧
  (∀ k, is_Some (r !! k) → ∃ s, k = Some s ∧ is_Some (dag_nodes (dag d) !! s)) ∧
  determine_final_status (self c) = COMPLETED.
Proof.
  intros Hr Hmain Hflag Hwf.
  destruct (reachable_success_inv d c Hr) as [[Hc Hm] Hk].
  rewrite Hmain in Hm. destruct Hm as (Hg & Hfin & Hroots & ->).
  pose proof Hg as (_ & _ & Hedges & _ & Hnodes & _).
  assert (∀ k n, executed_nodes (self c) !! k = Some n → status n = "SUCCESS")
    as Hsucc.
  { intros k n Hn.
    destruct (reachable_entries_ok d c Hr k n Hn) as [Hterm Hskip].
    destruct (inv_entries _ _ Hc k n Hn) as (_ & _ & Hfailed).
    destruct Hterm as [?|[[e ->]| ->]]; [done| |].
    - destruct Hfailed as [?|(t & Ht & Hp)]; [done|congruence|].
      rewrite (proj1 (Forall_forall _ _) Hfin t Ht) in Hp. done.
    - specialize (Hskip eq_refl). congruence. }
  assert (∀ s, is_Some (dag_nodes (dag d) !! s) → processed (tasks c) (Some s))
    as Hproc.
  { intros s. remember (rank s) as m eqn:Hrank. revert s Hrank.
    induction (lt_wf m) as [m _ IH]. intros s -> Hs.
    assert (has_task (tasks c) (Some s)) as (t & Ht & Hkey).
    { destruct (decide (Some s ∈ find_root_keys (self c))) as [Hroot|Hroot];
        [by apply Hroots|].
      destruct (not_root_has_edge (self c) s) as (e & He & Hto);
        [by apply Hnodes|done|].
      apply (Hk Hflag s e); [by apply Hnodes|done|done|].
      intros dep (e' & He' & Hto' & <-)%elem_of_dependencies_of.
      rewrite Hedges in He'.
      destruct (Hwf e' s He' Hto' Hs) as (a & -> & Ha & Hlt).
      by eapply IH. }
    exists t. split_and!; [done..|].
    by rewrite (proj1 (Forall_forall _ _) Hfin t Ht). }
  split_and!.
  - intros s Hs. destruct (Hproc s Hs) as (t & Ht & Hkey & Hp).
    pose proof (proj1 (Forall_forall _ _) (inv_tasks _ _ Hc) t Ht)
      as (_ & _ & _ & Hrec & _).
    destruct Hrec as [n Hn]; [by destruct (at_pc t)|].
    rewrite Hkey in Hn. exists (output n). rewrite Hn. f_equal.
    pose proof (Hsucc _ _ Hn) as Hst. destruct n; simpl in *. by subst.
  - intros k [n Hn].
    destruct (inv_entries _ _ Hc k n Hn) as (_ & Hnode & _).
    destruct Hnode as (s & -> & Hs); [by rewrite (Hsucc _ _ Hn)|].
    exists s. split; [done|]. by apply Hnodes.
  - unfold determine_final_status. cbv zeta.
    destruct (existsb _ _) eqn:HF.
    { apply existsb_statuses in HF as (k & n & Hn & Hs).
      rewrite (Hsucc _ _ Hn) in Hs. simpl in Hs. discriminate. }
    clear HF. destruct (existsb _ _) eqn:HP; [|done].
    apply existsb_statuses in HP as (k & n & Hn & Hs).
    rewrite (Hsucc _ _ Hn) in Hs. simpl in Hs. discriminate.
Qed.

(** ** Results are kept *)

Lemma step_executed_grows (ch : choice) (c c' : config) :
  step ch c = Some c' →
  dom (executed_nodes (self c)) ⊆ dom (executed_nodes (self c')).
Proof.
  unfold step. destruct (running c); [|done]. destruct ch as [o|tid o]; intros Hstep.
  - by apply step_main_self in Hstep as [->|(eid & _ & ->)].
  - apply step_task_inv in Hstep as (t & _ & [(ids & _ & _ & ->)|(g & s & Hr & ->)]).
    + done.
    + rewrite self_suspend_task, self_observe. simpl.
      by apply resume_extends in Hr as [? _].
Qed.

(** X13. Once a key has an entry in the executed-node map it has one for the
    rest of the run: an entry can be overwritten, it is never removed. *)
Theorem results_are_never_removed (sched : list choice) (c c' : config)
    (k : Key) :
  exec sched c = Some c' →
  is_Some (executed_nodes (self c) !! k) →
  is_Some (executed_nodes (self c') !! k).
Proof.
  revert c. induction sched as [|ch sched IH]; simpl; intros c Hexec Hk.
  - by simplify_eq.
  - destruct (step ch c) as [c1|] eqn:Hstep; [|done]. simpl in Hexec.
    apply (IH c1); [done|].
    by apply elem_of_dom, (step_executed_grows _ _ _ Hstep), elem_of_dom.
Qed.

(** ** Graphs without a root *)

(** Every node has an edge into it. *)
Definition rootless (g : DAG) : Prop :=
  ∀ s, is_Some (dag_nodes g !! s) →
    ∃ e, e ∈ dag_edges g ∧ to_node e = Some s.

Lemma rootless_find_root_keys d g :
  rootless (dag d) → graph_loaded d g → find_root_keys g = ∅.
Proof.
  intros Hd (_ & _ & He & _ & Hn & _). apply set_eq. intros k.
  rewrite elem_of_find_root_keys. split; [|set_solver].
  intros [(s & -> & Hs) Hno]. exfalso. apply Hno.
  destruct (Hd s) as (e & Hin & Hto); [by apply Hn|]. exists e. by rewrite He.
Qed.

Lemma after_load_rootless r c c' :
  after_load r c c' → r = ∅ →
  self c' = self c ∧ tasks c' = tasks c ∧
  (∀ r', main c' = MReturned r' → r' = executed_nodes (self c)) ∧
  (∀ a args, NodeActivity a args ∈ calls c' → NodeActivity a args ∈ calls c).
Proof.
  assert (∀ g k r st call a args, update_node_output g k r st = Some call →
            call ≠ NodeActivity a args) as Hn.
  { intros g k r0 st call a args (? & ? & ? & ->)%update_node_output_patch. done. }
  assert (∀ g st call a args, update_execution_status g st = Some call →
            call ≠ NodeActivity a args) as He.
  { intros g st call a args. unfold update_execution_status.
    destruct (execution_id g); [|done]. destruct (String.eqb _ _); [done|].
    by intros [= <-]. }
  intros Hal ->. destruct Hal as [k rest call Hu|call Hu|Hr|Hr]; simpl.
  - split_and!; try done. intros a args [?|[=]%list_elem_of_singleton]%elem_of_app;
      [done|]. subst. by eapply Hn in Hu.
  - split_and!; try done. intros a args [?|[=]%list_elem_of_singleton]%elem_of_app;
      [done|]. subst. by eapply He in Hu.
  - by rewrite elements_empty in Hr.
  - unfold finalize_execution.
    destruct (update_execution_status _ _) eqn:Hu; simpl; split_and!; try done.
    + intros a args [?|[=]%list_elem_of_singleton]%elem_of_app; [done|].
      subst. by eapply He in Hu.
    + by intros r' [= <-].
Qed.

(** X14. A graph in which every node has an edge into it (a cycle, for one) is
    not executed at all.  Whatever the schedule, the run creates no task,
    records no result and calls no node operation; if it returns, it
    returns the empty map, and the final status it computes is COMPLETED. *)
Theorem rootless_graph_runs_nothing (d : GeneratorParams) (c : config) :
  rootless (dag d) → reachable d c →
  tasks c = [] ∧ executed_nodes (self c) = ∅ ∧
  (∀ a args, NodeActivity a args ∉ calls c) ∧
  (∀ r, main c = MReturned r → r = ∅) ∧
  determine_final_status (self c) = COMPLETED.
Proof.
  intros Hd Hr.
  assert (run_inv d c ∧ tasks c = [] ∧ executed_nodes (self c) = ∅ ∧
          (∀ a args, NodeActivity a args ∉ calls c) ∧
          (∀ r, main c = MReturned r → r = ∅)) as (_ & Ht & Hx & Hc & Hm).
  { revert c Hr. apply reachable_invariant.
    { split; [apply run_inv_init|]. split_and!; try done.
      intros a args Hin. by apply elem_of_nil in Hin. }
    intros ch c c' (Hinv & Ht & Hx & Hc & Hm). unfold step.
    destruct (running c) eqn:Hrun; [|done]. destruct ch as [o|tid o]; intros Hstep.
    - split; [by eapply step_main_run_inv|].
      destruct Hinv as [Hs Hmain].
      apply step_main_effect in Hstep.
      destruct Hstep as [Hs0|e Hs0 Hr0|eid c' Hs0 Hal|r c' Hs0 Hal|ids Hs0 Hdone|Hs0];
        simpl.
      + split_and!; try done.
        intros a args [?|[=]%list_elem_of_singleton]%elem_of_app; by eapply Hc.
      + split_and!; done.
      + rewrite Hs0 in Hmain. destruct Hmain as (Hg & _ & _).
        apply after_load_rootless in Hal as (-> & -> & Hret & Hcalls).
        * simpl. rewrite Hg. simpl. split_and!; try done.
          -- intros a args Hin. by apply Hcalls, Hc in Hin.
          -- intros r Hmr. by rewrite (Hret r Hmr), Hg.
        * apply (rootless_find_root_keys d); [done|].
          rewrite (inv_data _ _ Hs). apply graph_loaded_loaded.
      + assert (r = find_root_keys (self c) ∧ graph_loaded d (self c))
          as (-> & Hg).
        { destruct Hs0 as [[rest Hs0]|Hs0]; rewrite Hs0 in Hmain;
            by destruct Hmain as (_ & ? & ?). }
        apply after_load_rootless in Hal as (-> & -> & Hret & Hcalls).
        * split_and!; try done.
          -- intros a args Hin. by apply Hcalls, Hc in Hin.
          -- intros r Hmr. by rewrite (Hret r Hmr).
        * by apply (rootless_find_root_keys d).
      + unfold finalize_execution.
        destruct (update_execution_status _ _) as [call|] eqn:Hu; simpl;
          split_and!; try done.
        * intros a args [?|[=]%list_elem_of_singleton]%elem_of_app;
            [by eapply Hc|].
          subst. unfold update_execution_status in Hu.
          destruct (execution_id (self c)); [|done].
          by destruct (String.eqb _ _).
        * by intros r [= <-].
      + split_and!; try done. by intros r [= <-].
    - exfalso. unfold step_task in Hstep. by rewrite Ht in Hstep. }
  split_and!; try done.
  unfold determine_final_status. by rewrite Hx, map_to_list_empty.
Qed.

(** ** Where the results come from *)














(** ** Nodes with a single predecessor *)

(** No key is the target of edges from two different sources. *)
Definition single_parent (g : DAG) : Prop :=
  ∀ e e', e ∈ dag_edges g → e' ∈ dag_edges g →
    to_node e = to_node e' → from_node e = from_node e'.

(** No two tasks have the same key, and the source of every edge into the
    key of a task has a task that is past its children. *)
Definition once_inv (g : Generator) (ts : list task) : Prop :=
  (∀ i j ti tj, ts !! i = Some ti → ts !! j = Some tj →
     node_key ti = node_key tj → i = j) ∧
  (∀ t e, t ∈ ts → e ∈ edges g → to_node e = node_key t →
     processed ts (from_node e)).

Lemma lookup_new_tasks_key (keys : list Key) (i : nat) (t : task) :
  new_tasks keys !! i = Some t → keys !! i = Some (node_key t).
Proof.
  unfold new_tasks. rewrite list_lookup_fmap.
  destruct (keys !! i); simpl; [|done]. by intros [= <-].
Qed.

Lemma once_inv_roots (g : Generator) :
  once_inv g (new_tasks (elements (find_root_keys g))).
Proof.
  split.
  - intros i j ti tj Hi%lookup_new_tasks_key Hj%lookup_new_tasks_key Hk.
    rewrite Hk in Hi.
    exact (NoDup_lookup _ _ _ _ (NoDup_elements (find_root_keys g)) Hi Hj).
  - intros t e [i Hi]%list_elem_of_lookup He Hto. exfalso.
    apply lookup_new_tasks in Hi as (_ & Hin & _).
    apply elem_of_elements, elem_of_find_root_keys in Hin as [_ Hno].
    apply Hno. eauto.
Qed.

Lemma once_inv_nil (g : Generator) : once_inv g [].
Proof.
  split; [by intros i j ti tj Hi|]. intros t e Hin. by apply elem_of_nil in Hin.
Qed.

Lemma after_load_once_inv r c c' :
  after_load r c c' → tasks c = [] → r = find_root_keys (self c) →
  once_inv (self c') (tasks c').
Proof.
  intros Hal Hts ->. destruct Hal as [k rest call Hu|call Hu|Hr|Hr]; simpl;
    rewrite ?Hts; try apply once_inv_nil.
  - apply once_inv_roots.
  - unfold finalize_execution. destruct (update_execution_status _ _); simpl;
      rewrite Hts; apply once_inv_nil.
Qed.

Lemma lookup_stepped_key (ts extra : list task) (tid : nat) (t : task) (p : pc)
    (i : nat) (ti : task) :
  ts !! tid = Some t →
  (<[tid := mk_task (node_key t) p]> ts ++ extra)%list !! i = Some ti →
  (∃ t0, ts !! i = Some t0 ∧ node_key t0 = node_key ti) ∨
  ((length ts ≤ i)%nat ∧ extra !! (i - length ts) = Some ti).
Proof.
  intros Ht Hi. apply lookup_stepped in Hi as [[-> ->]|[[Hne Hi]|[Hle Hi]]]; eauto.
Qed.

Lemma processed_stepped (ts extra : list task) (tid : nat) (t : task) (p : pc)
    (dep : Key) :
  ts !! tid = Some t →
  (past_children (at_pc t) = true → past_children p = true) →
  processed ts dep →
  processed (<[tid := mk_task (node_key t) p]> ts ++ extra)%list dep.
Proof.
  intros Ht Hp (t' & [i Hi]%list_elem_of_lookup & Hkey & Hpast).
  destruct (decide (i = tid)) as [->|Hne].
  - simplify_eq. exists (mk_task (node_key t) p). split_and!; [|done|by apply Hp].
    eapply list_elem_of_lookup_2, lookup_stepped_eq. by eapply lookup_lt_Some.
  - exists t'. split_and!; [|done..].
    eapply list_elem_of_lookup_2. by apply lookup_stepped_old.
Qed.

Lemma resume_launched_NoDup k p o g g' s :
  resume k p o g = Some (g', s) → NoDup (launched s).
Proof.
  intros Hres. resume_cases Hres; try constructor; apply NoDup_ready_children.
Qed.

Lemma once_inv_stepped d g g' ts tid t o s :
  single_parent (dag d) → edges g = dag_edges (dag d) →
  once_inv g ts → ts !! tid = Some t →
  resume (node_key t) (at_pc t) o g = Some (g', s) → raises s = false →
  once_inv g'
    (<[tid := mk_task (node_key t) (pc_after (length ts) s)]> ts
       ++ new_tasks (launched s))%list.
Proof.
  intros Hsp Hedges [V1 V2] Ht Hres Hs.
  destruct (resume_frame _ _ _ _ _ _ Hres) as (He & _).
  destruct (resume_not_joined _ _ _ _ _ Hres) as [Hnd Hnj].
  assert (past_children (at_pc t) = false) as Hpt.
  { destruct (at_pc t) as [| | | | | |ids|]; try done. }
  assert (∀ i ti j tj, ts !! i = Some ti →
            new_tasks (launched s) !! j = Some tj →
            node_key ti = node_key tj → False) as Hfresh.
  { intros i ti j tj Hi Hj Hk.
    apply lookup_new_tasks in Hj as (_ & Hin & _).
    destruct (resume_ready _ _ _ _ _ _ _ Hres Hin) as [(e0 & He0 & Hfrom & Hto) _].
    destruct (V2 ti e0) as (tp & [ip Hip]%list_elem_of_lookup & Hkp & Hpp).
    - by eapply list_elem_of_lookup_2.
    - by rewrite <-He.
    - by rewrite Hk.
    - assert (ip = tid) as -> by (eapply V1; [done..|congruence]).
      simplify_eq. congruence. }
  split.
  - intros i j ti tj Hi Hj Hk.
    destruct (lookup_stepped_key _ _ _ _ _ _ _ Ht Hi) as [(ti0 & Hi0 & Hki)|[Hli Hi0]];
    destruct (lookup_stepped_key _ _ _ _ _ _ _ Ht Hj) as [(tj0 & Hj0 & Hkj)|[Hlj Hj0]].
    + eapply V1; [done..|congruence].
    + exfalso. eapply Hfresh; [done..|congruence].
    + exfalso. eapply Hfresh; [done..|congruence].
    + apply lookup_new_tasks_key in Hi0, Hj0. rewrite Hk in Hi0.
      pose proof (NoDup_lookup _ _ _ _ (resume_launched_NoDup _ _ _ _ _ _ Hres)
                    Hi0 Hj0). lia.
  - intros t' e [i Hi]%list_elem_of_lookup Hin Hto.
    destruct (lookup_stepped_key _ _ _ _ _ _ _ Ht Hi) as [(t0 & Hi0 & Hk0)|[Hli Hi0]].
    + apply processed_stepped; [done|by rewrite Hpt|].
      apply (V2 t0 e); [by eapply list_elem_of_lookup_2|by rewrite <-He|congruence].
    + apply lookup_new_tasks in Hi0 as (_ & Hch & _).
      destruct (resume_ready _ _ _ _ _ _ _ Hres Hch) as [(e0 & He0 & Hfrom & Hto0) _].
      rewrite (Hsp e e0), Hfrom; [| | |congruence];
        [|by rewrite <-Hedges, <-He..].
      exists (mk_task (node_key t) (pc_after (length ts) s)). split_and!; [|done|].
      * eapply list_elem_of_lookup_2, lookup_stepped_eq. by eapply lookup_lt_Some.
      * simpl. rewrite pc_after_launched; [done|]. intros Hl. rewrite Hl in Hch.
        by apply elem_of_nil in Hch.
Qed.

Lemma reachable_once_inv (d : GeneratorParams) (c : config) :
  single_parent (dag d) → reachable d c → once_inv (self c) (tasks c).
Proof.
  intros Hsp Hr.
  assert (run_inv d c ∧ once_inv (self c) (tasks c)) as [_ ?]; [|done].
  revert c Hr. apply reachable_invariant.
  { split; [apply run_inv_init|apply once_inv_nil]. }
  intros ch c c' [Hinv Hv]. unfold step.
  destruct (running c); [|done]. destruct ch as [o|tid o]; intros Hstep.
  - split; [by eapply step_main_run_inv|].
    destruct Hinv as [Hs Hmain]. apply step_main_effect in Hstep.
    destruct Hstep as [Hs0|e Hs0 Hr0|eid c' Hs0 Hal|r c' Hs0 Hal|ids Hs0 Hdone|Hs0];
      try done.
    + rewrite Hs0 in Hmain. destruct Hmain as (_ & Hts & _).
      by eapply after_load_once_inv.
    + assert (tasks c = [] ∧ r = find_root_keys (self c)) as [Hts ->].
      { destruct Hs0 as [[rest Hs0]|Hs0]; rewrite Hs0 in Hmain;
          by destruct Hmain as (? & ? & _). }
      by eapply after_load_once_inv.
    + unfold finalize_execution. by destruct (update_execution_status _ _).
  - split; [by eapply step_task_run_inv|].
    apply step_task_effect in Hstep as (t & Ht & Hcases).
    assert (graph_loaded d (self c)) as (_ & _ & Hedges & _).
    { destruct Hinv as [Hs _]. destruct (inv_graph _ _ Hs) as [[_ Hts]|?]; [|done].
      by rewrite Hts in Ht. }
    destruct Hcases as [(ids & Hpc & Hd & ->)|(g' & s & Hres &
      [(e & -> & Hdata & Hself & Hmain & Hcalls & Htasks)|
       (Hs & Hdata & Hself & Hmain & Hcalls & Htasks)])].
    + simpl. destruct Hv as [V1 V2].
      rewrite <-(app_nil_r (<[tid:=_]> (tasks c))). split.
      * intros i j ti tj Hi Hj Hk.
        destruct (lookup_stepped_key _ _ _ _ _ _ _ Ht Hi) as [(ti0 & Hi0 & Hki)|[_ ?]];
          [|done].
        destruct (lookup_stepped_key _ _ _ _ _ _ _ Ht Hj) as [(tj0 & Hj0 & Hkj)|[_ ?]];
          [|done].
        eapply V1; [done..|congruence].
      * intros t' e [i Hi]%list_elem_of_lookup Hin Hto.
        destruct (lookup_stepped_key _ _ _ _ _ _ _ Ht Hi) as [(t0 & Hi0 & Hk0)|[_ ?]];
          [|done].
        apply processed_stepped; [done..|].
        apply (V2 t0 e); [by eapply list_elem_of_lookup_2|done|congruence].
    + apply resume_failing in Hres as ->. by rewrite Hself, Htasks.
    + rewrite Hself, Htasks. by eapply once_inv_stepped.
Qed.

(** X16. The double dispatch of a node needs two predecessors.  If no key of the
    graph is the target of edges from two different sources, then no two
    tasks of a run have the same node key: every node is started at most
    once. *)
Theorem single_parent_nodes_start_once (d : GeneratorParams) (c : config)
    (i j : nat) (ti tj : task) :
  single_parent (dag d) → reachable d c →
  tasks c !! i = Some ti → tasks c !! j = Some tj →
  node_key ti = node_key tj → i = j.
Proof.
  intros Hsp Hr. destruct (reachable_once_inv d c Hsp Hr) as [V1 _]. apply V1.
Qed.

(** ** The properties at work on concrete runs, continued *)

(** The configuration in which [diamond_schedule] ends: [run] has
    returned. *)
Definition diamond_final : config :=
  Eval vm_compute in
    default (init diamond) (exec diamond_schedule (init diamond)).

Lemma diamond_final_reachable : reachable diamond diamond_final.
Proof. exists diamond_schedule. vm_compute. reflexivity. Defined.

(** Two nodes on a cycle. *)
Definition two_cycle : GeneratorParams :=
  workflow ["a"; "b"] [edge "a" "b"; edge "b" "a"].

Definition two_cycle_final : config :=
  Eval vm_compute in
    default (init two_cycle)
      (exec [RunMain ack; RunMain created; RunMain ack; RunMain ack]
         (init two_cycle)).

Lemma two_cycle_final_reachable : reachable two_cycle two_cycle_final.
Proof.
  exists [RunMain ack; RunMain created; RunMain ack; RunMain ack].
  vm_compute. reflexivity.
Defined.

Lemma two_cycle_rootless : rootless (dag two_cycle).
Proof.
  intros s [n Hs]. apply elem_of_list_to_map_2 in Hs.
  apply elem_of_cons in Hs as [[= -> _]|Hs].
  { exists (edge "b" "a"). split; [|done]. apply list_elem_of_further, list_elem_of_here. }
  apply list_elem_of_singleton in Hs as [= -> _].
  exists (edge "a" "b"). split; [|done]. apply list_elem_of_here.
Defined.

(** The ranking of [diamond]: [c] comes after [a] and [b]. *)
Definition diamond_rank (s : string) : nat := if String.eqb s "c" then 1 else 0.

Lemma diamond_well_formed : well_formed (dag diamond) diamond_rank.
Proof.
  intros e b He Hto Hb.
  apply elem_of_cons in He as [->|He]; simpl in Hto; simplify_eq.
  { exists "a". split_and!; [done|by eexists|]. unfold diamond_rank. simpl. lia. }
  apply list_elem_of_singleton in He as ->. simpl in Hto. simplify_eq.
  exists "b". split_and!; [done|by eexists|]. unfold diamond_rank. simpl. lia.
Defined.

Lemma failed_sibling_single_parent : single_parent (dag failed_sibling).
Proof.
  intros e e' He He' _.
  apply list_elem_of_singleton in He as ->.
  by apply list_elem_of_singleton in He' as ->.
Defined.


Lemma result_keys_are_nodes_witness :
  reachable scenario_B scenario_B_final ∧
  executed_nodes (self scenario_B_final) !! key_a = Some (failed_state "boom") ∧
  status (failed_state "boom") ≠ "SKIPPED" ∧
  ∃ s, key_a = Some s ∧ is_Some (dag_nodes (dag scenario_B) !! s).
Proof.
  assert (executed_nodes (self scenario_B_final) !! key_a
          = Some (failed_state "boom")) as H2 by (vm_compute; reflexivity).
  assert (status (failed_state "boom") ≠ "SKIPPED") as H3 by discriminate.
  split; [exact scenario_B_final_reachable|]. split; [exact H2|].
  split; [exact H3|].
  exact (result_keys_are_nodes scenario_B scenario_B_final key_a
           (failed_state "boom") scenario_B_final_reachable H2 H3).
Defined.

Lemma predecessors_recorded_first_witness :
  reachable diamond diamond_final ∧
  edge "a" "c" ∈ dag_edges (dag diamond) ∧
  to_node (edge "a" "c") = Some "c" ∧
  is_Some (dag_nodes (dag diamond) !! "c") ∧
  is_Some (executed_nodes (self diamond_final) !! Some "c") ∧
  is_Some (executed_nodes (self diamond_final) !! from_node (edge "a" "c")).
Proof.
  assert (edge "a" "c" ∈ dag_edges (dag diamond)) as H2
    by apply list_elem_of_here.
  assert (is_Some (dag_nodes (dag diamond) !! "c")) as H4 by (by eexists).
  assert (is_Some (executed_nodes (self diamond_final) !! Some "c")) as H5
    by (by eexists).
  split; [exact diamond_final_reachable|]. split; [exact H2|].
  split; [reflexivity|]. split; [exact H4|]. split; [exact H5|].
  exact (predecessors_recorded_first diamond diamond_final (edge "a" "c") "c"
           diamond_final_reachable H2 eq_refl H4 (or_intror H5)).
Defined.

Lemma calls_of_a_run_witness :
  reachable scenario_B scenario_B_final ∧
  (calls scenario_B_final = [] ∨
   ∃ rest, calls scenario_B_final = create_call scenario_B :: rest ∧
     Forall (later_call scenario_B (self scenario_B_final)) rest).
Proof.
  split; [exact scenario_B_final_reachable|].
  exact (calls_of_a_run scenario_B scenario_B_final scenario_B_final_reachable).
Defined.

Lemma run_returns_after_all_tasks_witness :
  reachable diamond diamond_final ∧
  main diamond_final = MReturned (executed_nodes (self diamond_final)) ∧
  executed_nodes (self diamond_final) = executed_nodes (self diamond_final) ∧
  Forall (λ t, at_pc t = Done ∧
            is_Some (executed_nodes (self diamond_final) !! node_key t))
    (tasks diamond_final) ∧
  (∀ k, k ∈ find_root_keys (self diamond_final) →
     is_Some (executed_nodes (self diamond_final) !! k)).
Proof.
  assert (main diamond_final = MReturned (executed_nodes (self diamond_final)))
    as H2 by (vm_compute; reflexivity).
  split; [exact diamond_final_reachable|]. split; [exact H2|].
  exact (run_returns_after_all_tasks diamond diamond_final
           (executed_nodes (self diamond_final)) diamond_final_reachable H2).
Defined.

Lemma successful_run_executes_every_node_witness :
  reachable diamond diamond_final ∧
  main diamond_final = MReturned (executed_nodes (self diamond_final)) ∧
  _workflow_failed (self diamond_final) = false ∧
  well_formed (dag diamond) diamond_rank ∧
  (∀ s, is_Some (dag_nodes (dag diamond) !! s) →
     ∃ v, executed_nodes (self diamond_final) !! Some s
          = Some {| status := "SUCCESS"; output := v |}) ∧
  (∀ k, is_Some (executed_nodes (self diamond_final) !! k) →
     ∃ s, k = Some s ∧ is_Some (dag_nodes (dag diamond) !! s)) ∧
  determine_final_status (self diamond_final) = COMPLETED.
Proof.
  assert (main diamond_final = MReturned (executed_nodes (self diamond_final)))
    as H2 by (vm_compute; reflexivity).
  assert (_workflow_failed (self diamond_final) = false) as H3 by reflexivity.
  split; [exact diamond_final_reachable|]. split; [exact H2|].
  split; [exact H3|]. split; [exact diamond_well_formed|].
  exact (successful_run_executes_every_node diamond diamond_final
           (executed_nodes (self diamond_final)) diamond_rank
           diamond_final_reachable H2 H3 diamond_well_formed).
Defined.

Lemma results_are_never_removed_witness :
  exec (drop 11 diamond_schedule) both_recorded_config = Some diamond_final ∧
  is_Some (executed_nodes (self both_recorded_config) !! Some "a") ∧
  is_Some (executed_nodes (self diamond_final) !! Some "a").
Proof.
  assert (exec (drop 11 diamond_schedule) both_recorded_config
          = Some diamond_final) as H1 by (vm_compute; reflexivity).
  assert (is_Some (executed_nodes (self both_recorded_config) !! Some "a"))
    as H2 by (by eexists).
  split; [exact H1|]. split; [exact H2|].
  exact (results_are_never_removed (drop 11 diamond_schedule)
           both_recorded_config diamond_final (Some "a") H1 H2).
Defined.

Lemma rootless_graph_runs_nothing_witness :
  rootless (dag two_cycle) ∧ reachable two_cycle two_cycle_final ∧
  main two_cycle_final = MReturned ∅ ∧
  tasks two_cycle_final = [] ∧ executed_nodes (self two_cycle_final) = ∅ ∧
  (∀ a args, NodeActivity a args ∉ calls two_cycle_final) ∧
  (∀ r, main two_cycle_final = MReturned r → r = ∅) ∧
  determine_final_status (self two_cycle_final) = COMPLETED.
Proof.
  split; [exact two_cycle_rootless|].
  split; [exact two_cycle_final_reachable|]. split; [reflexivity|].
  exact (rootless_graph_runs_nothing two_cycle two_cycle_final
           two_cycle_rootless two_cycle_final_reachable).
Defined.


Lemma single_parent_nodes_start_once_witness :
  single_parent (dag failed_sibling) ∧
  reachable failed_sibling skipped_child_after ∧
  tasks skipped_child_after !! 2 = Some (mk_task (Some "z") AwaitPatchSkipped) ∧
  2 = 2.
Proof.
  assert (tasks skipped_child_after !! 2 = Some (mk_task (Some "z") AwaitPatchSkipped))
    as H3 by reflexivity.
  split; [exact failed_sibling_single_parent|].
  split; [exact skipped_child_after_reachable|]. split; [exact H3|].
  exact (single_parent_nodes_start_once failed_sibling skipped_child_after 2 2
           _ _ failed_sibling_single_parent skipped_child_after_reachable
           H3 H3 eq_refl).
Defined.
